(** * med_active_learning: index-set management, uncertainty sampling
      and the cycle controller

    A shallow embedding of [utils.py] ([postprocess_indices],
    [stratified_random_sampling], [perform_sampling], [AverageMeter], the
    learning-rate schedule, the ranking loss, the [NTXent] mask),
    [active_learning/uncertainty_sampling.py] (class [UncertaintySampling])
    and the epoch loop of [code/train.py] ([main]), followed by the
    properties proved about them. *)

From Stdlib Require Import String Ascii.
From Stdlib Require Import List ZArith Lia Bool Permutation.
From Stdlib Require Import QArith Reals Lra Sorted.
From Stdlib Require PrimFloat.
Import ListNotations.
Close Scope Q_scope.

(* ================================================================= *)
(** * Part I — the program *)
(* ================================================================= *)

(* ----------------------------------------------------------------- *)
(** ** utils.py — the index-set manager *)

(** Dataset indices are numpy integers; positions into a tensor are Python
    integers: a position [p] with [0 <= p < n] addresses entry [p], a
    position with [-n <= p < 0] addresses entry [p + n], anything else
    raises [IndexError] (modelled by [None]). *)
Definition norm_index (n : nat) (p : Z) : option nat :=
  if ((0 <=? p) && (p <? Z.of_nat n))%Z then Some (Z.to_nat p)
  else if ((- Z.of_nat n <=? p) && (p <? 0))%Z then Some (Z.to_nat (p + Z.of_nat n))
  else None.

(** [mask[i] = v] on a one-dimensional tensor. *)
Fixpoint set_at {A : Type} (i : nat) (v : A) (l : list A) : list A :=
  match l, i with
  | [], _ => []
  | _ :: t, O => v :: t
  | h :: t, S j => h :: set_at j v t
  end.

(** [unlabeled_mask[samples_indices] = 0]: every selected position is
    cleared; an out-of-range position aborts the assignment. *)
Fixpoint clear_mask (mask : list bool) (samples_indices : list Z) : option (list bool) :=
  match samples_indices with
  | [] => Some mask
  | p :: rest =>
      match norm_index (length mask) p with
      | None => None
      | Some i => clear_mask (set_at i false mask) rest
      end
  end.

(** Boolean-mask indexing [a[mask]]: the entries of [a] whose mask bit is
    set, in their order in [a]. *)
Fixpoint mask_select {A : Type} (mask : list bool) (a : list A) : list A :=
  match mask, a with
  | b :: mask', x :: a' => if b then x :: mask_select mask' a' else mask_select mask' a'
  | _, _ => []
  end.

(** [postprocess_indices(labeled_indices, unlabeled_indices, samples_indices)]. *)
Definition postprocess_indices (labeled_indices unlabeled_indices : list Z)
  (samples_indices : list Z) : option (list Z * list Z) :=
  let unlabeled_mask := repeat true (length unlabeled_indices) in
  match clear_mask unlabeled_mask samples_indices with
  | None => None
  | Some unlabeled_mask =>
      let labeled_indices :=
        labeled_indices ++ mask_select (map negb unlabeled_mask) unlabeled_indices in
      let unlabeled_indices := mask_select unlabeled_mask unlabeled_indices in
      Some (labeled_indices, unlabeled_indices)
  end.

(* ----------------------------------------------------------------- *)
(** ** utils.py — random subsampling

    A run of the program has the seed it was configured with ([args.seed],
    with which [main] seeds [random], [torch] and the legacy [np.random]
    state) and the entropy the operating system hands out to generators
    created without a seed.  A [numpy.random.Generator] is modelled by the
    stream of draws it produces, and [choice] without replacement by
    drawing a position of the remaining pool and removing it. *)

Record RunEnv : Type := mkRunEnv {
  seed : Z;
  os_entropy : list nat
}.

Definition Generator : Type := list nat.

(** [default_rng()]: no seed is passed, the generator is initialised from
    operating-system entropy. *)
Definition default_rng (env : RunEnv) : Generator := os_entropy env.

Fixpoint remove_at {A : Type} (i : nat) (l : list A) : list A :=
  match l, i with
  | [], _ => []
  | _ :: t, O => t
  | h :: t, S j => h :: remove_at j t
  end.

Fixpoint draw_without_replacement (rng : Generator) (pool : list nat) (size : nat)
  : list nat :=
  match size with
  | O => []
  | S k =>
      let i := Nat.modulo (hd O rng) (length pool) in
      nth i pool O :: draw_without_replacement (tl rng) (remove_at i pool) k
  end.

(** [rng.choice(n, size=size, replace=False)]; a sample larger than the
    population raises [ValueError]. *)
Definition choice (rng : Generator) (n size : nat) : option (list nat) :=
  if Nat.leb size n then Some (draw_without_replacement rng (seq 0 n) size) else None.

Definition stratified_random_sampling (env : RunEnv) (unlabeled_indices : list Z)
  (number : nat) : option (list nat) :=
  let rng := default_rng env in
  let samples_indices := choice rng (length unlabeled_indices) number in
  samples_indices.

(* ----------------------------------------------------------------- *)
(** ** active_learning/uncertainty_sampling.py — tensors

    A 2-D tensor is the list of its rows.  Tensor entries are floats; in
    this part they are idealised as real numbers, [torch.log] as [ln],
    [torch.exp] as [exp] and [norm] with [sqrt]: rounding, infinities and
    NaN are left out ([ln] agrees with the logarithm for positive arguments
    only, and a division is meaningful for a non-zero divisor only).  What
    is proved of these definitions is meant for inputs on which the floats
    stay finite numbers: no probability that is exactly 0 under a
    logarithm or a division.  Module [Float32] below reads the softmax and
    the entropy over float32 values, with their underflow and NaN.  [None]
    stands for a raised exception. *)

Definition Tensor1 : Type := list R.
Definition Tensor2 : Type := list (list R).

Definition Rsum (l : list R) : R := fold_right Rplus 0%R l.

(** [map] over the rows with a function that may raise. *)
Fixpoint map_rows {A B : Type} (f : A -> option B) (l : list A) : option (list B) :=
  match l with
  | [] => Some []
  | x :: t =>
      match f x, map_rows f t with
      | Some y, Some ys => Some (y :: ys)
      | _, _ => None
      end
  end.

(** [torch.max(., dim=1)[0]] on one row; a row without entries raises. *)
Definition row_max (row : list R) : option R :=
  match row with
  | [] => None
  | x :: t => Some (fold_left Rmax t x)
  end.

(** [torch.sort(., dim=1)[0]] on one row: ascending. *)
Fixpoint Rinsert (x : R) (l : list R) : list R :=
  match l with
  | [] => [x]
  | y :: t => if Rle_dec x y then x :: l else y :: Rinsert x t
  end.

Fixpoint Rsort (l : list R) : list R :=
  match l with
  | [] => []
  | x :: t => Rinsert x (Rsort t)
  end.

(** The entries [row[-1]] and [row[-2]]; a row with fewer than two entries
    raises [IndexError]. *)
Definition last_two (row : list R) : option (R * R) :=
  match rev row with
  | a :: b :: _ => Some (a, b)
  | _ => None
  end.

(** [F.softmax(output, dim=1)], exact: every probability is positive.  In
    float32 the small ones underflow to 0, see [Float32.softmax_row]. *)
Definition softmax_row (row : list R) : list R :=
  map (fun x => (exp x / Rsum (map exp row))%R) row.

Definition softmax (output : Tensor2) : Tensor2 := map softmax_row output.

(** [t.norm(dim=1)] on one row, and [t / t.norm(dim=1)[:, None]]. *)
Definition row_norm (row : list R) : R := sqrt (Rsum (map (fun x => (x * x)%R) row)).

Definition normalize_rows (t : Tensor2) : Tensor2 :=
  map (fun row => map (fun x => (x / row_norm row)%R) row) t.

Definition dot (u v : list R) : R :=
  Rsum (map (fun ab => (fst ab * snd ab)%R) (combine u v)).

(** [torch.mm(a, b.transpose(0, 1))]; rows of different widths raise. *)
Definition mm_transpose (a b : Tensor2) : option Tensor2 :=
  if forallb (fun u => forallb (fun v => Nat.eqb (length u) (length v)) b) a
  then Some (map (fun u => map (fun v => dot u v) b) a)
  else None.

(** [torch.mean(., dim=1)] on one row. *)
Definition row_mean (row : list R) : R := (Rsum row / INR (length row))%R.

(** Element-wise product of two 1-D tensors of the same length (the
    broadcast of a length-1 tensor is not modelled: it raises here). *)
Definition mul_elementwise (a b : Tensor1) : option Tensor1 :=
  if Nat.eqb (length a) (length b)
  then Some (map (fun ab => (fst ab * snd ab)%R) (combine a b))
  else None.

(* ----------------------------------------------------------------- *)
(** ** The scoring functions of [UncertaintySampling]

    Each takes [(probs, feat, feat_train)]; [feat_train] is [None] when
    the caller has no reference features. *)

Definition least_confidence (probs : Tensor2) (_ : Tensor2) (__ : option Tensor2)
  : option Tensor1 :=
  let simple_least_conf := map_rows row_max probs in
  simple_least_conf.

Definition margin_confidence (probs : Tensor2) (_ : Tensor2) (__ : option Tensor2)
  : option Tensor1 :=
  let probs := map Rsort probs in
  map_rows (fun row => option_map (fun ab => (fst ab - snd ab)%R) (last_two row)) probs.

Definition ratio_confidence (probs : Tensor2) (_ : Tensor2) (__ : option Tensor2)
  : option Tensor1 :=
  let probs := map Rsort probs in
  map_rows (fun row => option_map (fun ab => (fst ab / snd ab)%R) (last_two row)) probs.

(** Over the reals, for positive probabilities; at a probability that is
    exactly 0 the code computes NaN, see [Float32.entropy_based]. *)
Definition entropy_based (probs : Tensor2) (_ : Tensor2) (__ : option Tensor2)
  : option Tensor1 :=
  let log_probs := map (map ln) probs in
  Some (map (fun pl => Rsum (map (fun ab => (- fst ab * snd ab)%R) (combine (fst pl) (snd pl))))
          (combine probs log_probs)).

Definition density_weighted (probs : Tensor2) (feat : Tensor2) (feat_train : option Tensor2)
  : option Tensor1 :=
  match map_rows row_max probs, feat_train with
  | Some simple_least_conf, Some feat_train =>
      let feat_norm := normalize_rows feat in
      let feat_train_norm := normalize_rows feat_train in
      match mm_transpose feat_norm feat_train_norm with
      | Some similarities =>
          mul_elementwise simple_least_conf
            (map (fun row => (- row_mean row + 1)%R) similarities)
      | None => None
      end
  | _, _ => None
  end.

(* ----------------------------------------------------------------- *)
(** ** The class [UncertaintySampling]: construction by [getattr] *)

Inductive ScoringFunction : Type :=
| LeastConfidence
| MarginConfidence
| RatioConfidence
| EntropyBased
| DensityWeighted.

(** What an attribute of an instance can be: one of the static scoring
    functions, a bound method of the class, a string stored on the
    instance, or an attribute every Python object has. *)
Inductive Attribute : Type :=
| StaticMethod (f : ScoringFunction)
| BoundMethod (name : string)
| StringField (value : string)
| ObjectAttribute (name : string).

(** The names the class body defines. *)
Definition class_attribute (name : string) : option Attribute :=
  if String.eqb name "__init__" then Some (BoundMethod "__init__")
  else if String.eqb name "least_confidence" then Some (StaticMethod LeastConfidence)
  else if String.eqb name "margin_confidence" then Some (StaticMethod MarginConfidence)
  else if String.eqb name "ratio_confidence" then Some (StaticMethod RatioConfidence)
  else if String.eqb name "entropy_based" then Some (StaticMethod EntropyBased)
  else if String.eqb name "density_weighted" then Some (StaticMethod DensityWeighted)
  else if String.eqb name "get_samples" then Some (BoundMethod "get_samples")
  else None.

(** [getattr(self, name)]: the instance dictionary, then the class, then
    the attributes inherited from [object] and the class machinery (their
    names are the parameter [inherited]); [None] is [AttributeError]. *)
Definition getattr (inherited : string -> bool) (instance_dict : list (string * Attribute))
  (name : string) : option Attribute :=
  match find (fun kv => String.eqb (fst kv) name) instance_dict with
  | Some kv => Some (snd kv)
  | None =>
      match class_attribute name with
      | Some a => Some a
      | None => if inherited name then Some (ObjectAttribute name) else None
      end
  end.

Record UncertaintySampling : Type := mkUncertaintySampling {
  uncertainty_sampling_method : string;
  method : Attribute;
  verbose : bool
}.

(** [UncertaintySampling.__init__]: when [getattr] runs, the instance
    dictionary holds [uncertainty_sampling_method] only. *)
Definition init (inherited : string -> bool) (uncertainty_sampling_method : string)
  (verbose : bool) : option UncertaintySampling :=
  let instance_dict :=
    [("uncertainty_sampling_method"%string, StringField uncertainty_sampling_method)] in
  match getattr inherited instance_dict uncertainty_sampling_method with
  | Some method => Some (mkUncertaintySampling uncertainty_sampling_method method verbose)
  | None => None
  end.

(** The attribute names of a plain object of a class without slots (as of
    CPython 3.8), used where a concrete [inherited] is needed. *)
Definition object_attributes : list string :=
  ["__class__"; "__delattr__"; "__dict__"; "__dir__"; "__doc__"; "__eq__"; "__format__";
   "__ge__"; "__getattribute__"; "__gt__"; "__hash__"; "__init_subclass__"; "__le__";
   "__lt__"; "__module__"; "__ne__"; "__new__"; "__reduce__"; "__reduce_ex__"; "__repr__";
   "__setattr__"; "__sizeof__"; "__str__"; "__subclasshook__"; "__weakref__"]%string.

Definition python_object (name : string) : bool :=
  existsb (String.eqb name) object_attributes.

(** The scoring function a method name stands for, if any. *)
Definition scoring_function_named (name : string) : option ScoringFunction :=
  match class_attribute name with
  | Some (StaticMethod f) => Some f
  | _ => None
  end.

(** [self.method(probs, feat, feat_train)]: a scoring function is applied;
    any other attribute is not callable this way and raises. *)
Definition call_method (method : Attribute) (probs feat : Tensor2)
  (feat_train : option Tensor2) : option Tensor1 :=
  match method with
  | StaticMethod LeastConfidence => least_confidence probs feat feat_train
  | StaticMethod MarginConfidence => margin_confidence probs feat feat_train
  | StaticMethod RatioConfidence => ratio_confidence probs feat feat_train
  | StaticMethod EntropyBased => entropy_based probs feat feat_train
  | StaticMethod DensityWeighted => density_weighted probs feat feat_train
  | _ => None
  end.

(* ----------------------------------------------------------------- *)
(** ** [torch.Tensor.argsort]: the contract

    The contract is the documented one for [stable=False], the default the
    source relies on: the result lists every position once and the values
    read in that order are sorted; the order of equal values is not
    specified. *)

Definition ordered (descending : bool) (x y : R) : Prop :=
  if descending then (y <= x)%R else (x <= y)%R.

Definition argsort_contract (argsort : bool -> Tensor1 -> list nat) : Prop :=
  forall descending samples,
    Permutation (argsort descending samples) (seq 0 (length samples)) /\
    StronglySorted (fun i j => ordered descending (nth i samples 0%R) (nth j samples 0%R))
      (argsort descending samples).

(* ----------------------------------------------------------------- *)
(** ** [get_samples]

    The model is a function from a batch of inputs to [(output, feat)];
    every call of it is appended to a log, which is the state threaded
    through the computation.  [torch.Tensor.argsort] is a parameter: the
    source calls it without [stable=True].  Timing and printing are left
    out. *)

Section GetSamples.

Variable X : Type.
Variable model : list X -> Tensor2 * Tensor2.
Variable argsort : bool -> Tensor1 -> list nat.

Definition Batch : Type := (list X * list Z)%type.
Definition Loader : Type := list Batch.

(** State (the log of model calls) and exceptions. *)
Definition M (A : Type) : Type := list (list X) -> option (A * list (list X)).

Definition ret {A : Type} (a : A) : M A := fun log => Some (a, log).

Definition bind {A B : Type} (m : M A) (k : A -> M B) : M B :=
  fun log => match m log with
             | Some (a, log') => k a log'
             | None => None
             end.

Definition lift {A : Type} (o : option A) : M A :=
  fun log => match o with
             | Some a => Some (a, log)
             | None => None
             end.

Definition call_model (data_x : list X) : M (Tensor2 * Tensor2) :=
  fun log => Some (model data_x, log ++ [data_x]).

(** [for b in loader: acc = body(b, acc)]. *)
Fixpoint for_each {S : Type} (loader : Loader) (body : Batch -> S -> M S) (acc : S) : M S :=
  match loader with
  | [] => ret acc
  | b :: rest => bind (body b acc) (for_each rest body)
  end.

(** [x if acc is None else torch.cat([acc, x])]. *)
Definition cat_onto {A : Type} (acc : option (list A)) (x : list A) : list A :=
  match acc with
  | None => x
  | Some a => a ++ x
  end.

(** Lines 90-93. *)
Definition select_samples (self : UncertaintySampling) (samples : Tensor1) (number : nat)
  : list nat :=
  if String.eqb (uncertainty_sampling_method self) "entropy_based"
  then firstn number (argsort true samples)
  else firstn number (argsort false samples).

Definition get_samples (self : UncertaintySampling) (train_loader unlabeled_loader : Loader)
  (number : nat) : M (list nat) :=
  bind (for_each train_loader
          (fun b feat_train =>
             bind (call_model (fst b)) (fun out =>
             ret (Some (cat_onto feat_train (snd out)))))
          None) (fun feat_train =>
  bind (for_each unlabeled_loader
          (fun b samples =>
             bind (call_model (fst b)) (fun out =>
             bind (lift (call_method (method self) (softmax (fst out)) (snd out) feat_train))
               (fun score =>
             ret (Some (cat_onto samples score)))))
          None) (fun samples =>
  match samples with
  | None => lift None
  | Some samples => ret (select_samples self samples number)
  end)).

End GetSamples.

Arguments ret {X A}.
Arguments bind {X A B}.
Arguments lift {X A}.
Arguments call_model {X}.
Arguments for_each {X S}.
Arguments get_samples {X}.

(* ----------------------------------------------------------------- *)
(** ** code/train.py — the cycle controller (the epoch loop of [main])

    Training and validation are external; what the controller sees of an
    epoch is the macro-average recall of its validation report.  Recalls
    are finite floats that are only compared, never computed with, so they
    are modelled as rationals.  [perform_sampling], the loaders, the model
    and the loss are outside the controller: a sampling event is recorded
    in the event log. *)

(** The labeled amounts ([start_labeled], [add_labeled], [stop_labeled])
    are Python numbers: integers when they count examples, floats when they
    are ratios (the options that declare them are not among the sources).
    The loop adds them ([+=]) and compares them ([>]), and nothing else, so
    the two operations are an interface; no law of arithmetic is assumed of
    them. *)
Class Number (A : Type) : Type := {
  number_add : A -> A -> A;
  number_gt : A -> A -> bool
}.

(** [x > y] on recalls and on exact amounts. *)
Definition Qgtb (x y : Q) : bool := negb (Qle_bool x y).

(** Exact amounts: Python integers (and fractions). *)
#[export] Instance exact_amounts : Number Q :=
  {| number_add := Qplus; number_gt := Qgtb |}.

(** Python floats: IEEE binary64, rounded to nearest even. *)
#[export] Instance float_amounts : Number PrimFloat.float :=
  {| number_add := PrimFloat.add; number_gt := fun x y => PrimFloat.ltb y x |}.

Record Args (A : Type) : Type := mkArgs {
  start_epoch : Z;
  epochs : Z;
  labeled_warmup_epochs : Z;
  add_labeled_epochs : Z;
  add_labeled : A;
  stop_labeled : A
}.
Arguments mkArgs {A}.
Arguments start_epoch {A}.
Arguments epochs {A}.
Arguments labeled_warmup_epochs {A}.
Arguments add_labeled_epochs {A}.
Arguments add_labeled {A}.
Arguments stop_labeled {A}.

(** A validation report: the epoch it was produced in and its
    ['macro avg']['recall'] entry. *)
Definition Report : Type := (Z * Q)%type.
Definition macro_avg_recall (r : Report) : Q := snd r.

(** [pd.concat([frame, item])]: the rows of [item] after those of [frame];
    an item that is [None] is dropped silently (the frame is never [None]
    here, so the call does not raise).  A frame is represented by the list
    of the reports concatenated into it. *)
Definition pd_concat (frame : list Report) (item : option Report) : list Report :=
  match item with
  | Some report => frame ++ [report]
  | None => frame
  end.

(** The variables of [main] that the loop reads and writes.  [best_model]
    holds the epoch whose model was snapshot ([None]: the initial copy). *)
Record CycleState (A : Type) : Type := mkState {
  best_recall : Q;
  best_report : option Report;
  best_model : option Z;
  last_best_epochs : Z;
  current_labeled : A;
  metrics_per_cycle : list Report
}.
Arguments mkState {A}.
Arguments best_recall {A}.
Arguments best_report {A}.
Arguments best_model {A}.
Arguments last_best_epochs {A}.
Arguments current_labeled {A}.
Arguments metrics_per_cycle {A}.

(** What one pass through the loop body did: the epoch, its recall,
    [is_best], the counter right after line 172, whether the sampling branch
    was taken, and the state before and after. *)
Record Event (A : Type) : Type := mkEvent {
  ev_epoch : Z;
  ev_recall : Q;
  ev_is_best : bool;
  ev_counter : Z;
  ev_sampled : bool;
  ev_before : CycleState A;
  ev_after : CycleState A
}.
Arguments mkEvent {A}.
Arguments ev_epoch {A}.
Arguments ev_recall {A}.
Arguments ev_is_best {A}.
Arguments ev_counter {A}.
Arguments ev_sampled {A}.
Arguments ev_before {A}.
Arguments ev_after {A}.

(** [range(a, b)]. *)
Definition range (a b : Z) : list Z :=
  map (fun i => (a + Z.of_nat i)%Z) (seq 0 (Z.to_nat (b - a))).

(** Lines 168-207: one epoch. *)
Definition epoch_body {A : Type} {numbers : Number A} (args : Args A) (epoch : Z)
  (val_report : Report) (s : CycleState A) : Event A * CycleState A :=
  let is_best := Qgtb (macro_avg_recall val_report) (best_recall s) in
  let counter := if is_best then 0%Z else (last_best_epochs s + 1)%Z in
  let sampling :=
    ((epoch >? labeled_warmup_epochs args) && (counter >? add_labeled_epochs args))%Z in
  let s' :=
    if sampling then
      {| best_recall := best_recall s;
         best_report := best_report s;
         best_model := best_model s;
         last_best_epochs := 0%Z;
         current_labeled := number_add (current_labeled s) (add_labeled args);
         metrics_per_cycle := pd_concat (metrics_per_cycle s) (best_report s) |}
    else
      {| best_recall := if is_best then macro_avg_recall val_report else best_recall s;
         best_report := if is_best then Some val_report else best_report s;
         best_model := if is_best then Some epoch else best_model s;
         last_best_epochs := counter;
         current_labeled := current_labeled s;
         metrics_per_cycle := metrics_per_cycle s |} in
  (mkEvent epoch (macro_avg_recall val_report) is_best counter sampling s s', s').

Arguments epoch_body : simpl never.

(** Lines 167-210: the loop, with its [break]. *)
Fixpoint epoch_loop {A : Type} {numbers : Number A} (args : Args A) (validate : Z -> Q)
  (eps : list Z) (s : CycleState A) : list (Event A) * CycleState A :=
  match eps with
  | [] => ([], s)
  | epoch :: rest =>
      let (ev, s') := epoch_body args epoch (epoch, validate epoch) s in
      if number_gt (current_labeled s') (stop_labeled args) then ([ev], s')
      else let (evs, sf) := epoch_loop args validate rest s' in (ev :: evs, sf)
  end.

(** Line 165 and [current_labeled = dataset_class.start_labeled]. *)
Definition initial_state {A : Type} (start_labeled : A) : CycleState A :=
  {| best_recall := 0%Q;
     best_report := None;
     best_model := None;
     last_best_epochs := 0%Z;
     current_labeled := start_labeled;
     metrics_per_cycle := [] |}.

Definition main {A : Type} {numbers : Number A} (args : Args A) (start_labeled : A)
  (validate : Z -> Q) : list (Event A) * CycleState A :=
  epoch_loop args validate (range (start_epoch args) (epochs args))
    (initial_state start_labeled).

(* ----------------------------------------------------------------- *)
(** ** Vocabulary for stating the properties *)

(** Two index sequences share no dataset index. *)
Definition disjoint_seq {A : Type} (l1 l2 : list A) : Prop :=
  forall x, In x l1 -> In x l2 -> False.

(** The entries a selection addresses, as offsets from the front of a
    sequence of length [n] (Python's reading of a possibly negative index). *)
Definition positions (n : nat) (samples_indices : list Z) : list nat :=
  map (fun p => Z.to_nat (p mod Z.of_nat n)) samples_indices.

Definition selected (ns : list nat) (i : nat) : bool := existsb (Nat.eqb i) ns.

(** The entries of [a] at the positions [i, i+1, ...] that satisfy [keep],
    in their order in [a]. *)
Fixpoint pick_from {A : Type} (keep : nat -> bool) (i : nat) (a : list A) : list A :=
  match a with
  | [] => []
  | x :: a' => if keep i then x :: pick_from keep (S i) a' else pick_from keep (S i) a'
  end.

(** The keep-mask after the positions [ns] have been cleared, [i] being the
    position of the first bit of [mask]. *)
Fixpoint cleared (ns : list nat) (i : nat) (mask : list bool) : list bool :=
  match mask with
  | [] => []
  | b :: m => (b && negb (selected ns i)) :: cleared ns (S i) m
  end.






(** The scores [self.method] gives to the examples of one unlabeled batch. *)
Definition batch_scores {X : Type} (model : list X -> Tensor2 * Tensor2)
  (self : UncertaintySampling) (feat_train : option Tensor2) (b : list X * list Z)
  : option Tensor1 :=
  call_method (method self) (softmax (fst (model (fst b)))) (snd (model (fst b))) feat_train.



(** The number of most recent epochs, newest first in [past], that neither
    set a new best recall nor ended in a sampling event. *)
Fixpoint stagnant_epochs {A : Type} (past : list (Event A)) : Z :=
  match past with
  | [] => 0%Z
  | ev :: older =>
      if ev_is_best ev || ev_sampled ev then 0%Z else (1 + stagnant_epochs older)%Z
  end.

(** The best recall among [rs], starting from the initial best of 0. *)
Definition best_of (rs : list Q) : Q :=
  fold_left (fun best r => if Qgtb r best then r else best) rs 0%Q.

(** The controller state that follows a list of events. *)
Definition state_after {A : Type} (start_labeled : A) (pre : list (Event A))
  : CycleState A :=
  match rev pre with
  | [] => initial_state start_labeled
  | ev :: _ => ev_after ev
  end.

(** [run_from args validate s evs]: the events [evs] are consecutive passes
    through the loop body, the first one starting in state [s]. *)
Inductive run_from {A : Type} {numbers : Number A} (args : Args A) (validate : Z -> Q)
  : CycleState A -> list (Event A) -> Prop :=
| run_done : forall s, run_from args validate s []
| run_epoch : forall s epoch ev s' evs,
    epoch_body args epoch (epoch, validate epoch) s = (ev, s') ->
    run_from args validate s' evs ->
    run_from args validate s (ev :: evs).

(* ----------------------------------------------------------------- *)
(** ** Instances used in the examples *)

Definition ordered_dec (descending : bool) (x y : R)
  : {ordered descending x y} + {~ ordered descending x y} :=
  match descending return {ordered descending x y} + {~ ordered descending x y} with
  | true => Rle_dec y x
  | false => Rle_dec x y
  end.

Fixpoint insert_position (descending : bool) (samples : Tensor1) (i : nat) (l : list nat)
  : list nat :=
  match l with
  | [] => [i]
  | j :: t =>
      if ordered_dec descending (nth i samples 0%R) (nth j samples 0%R)
      then i :: l
      else j :: insert_position descending samples i t
  end.

(** An argsort that keeps equal values in their original order. *)
Definition stable_argsort (descending : bool) (samples : Tensor1) : list nat :=
  fold_right (insert_position descending samples) [] (seq 0 (length samples)).




(** A model for exercising [get_samples]: inputs are numbers, every input
    gets the logits [0, 0] and the feature [1]. *)
Definition constant_model (data_x : list nat) : Tensor2 * Tensor2 :=
  (map (fun _ => [0; 0]%R) data_x, map (fun _ => [1]%R) data_x).

Definition demo_train_loader : list (list nat * list Z) := [([7], [0%Z])].
Definition demo_unlabeled_loader : list (list nat * list Z) := [([0; 1], [0%Z; 0%Z])].



Definition entropy_sampler : UncertaintySampling :=
  mkUncertaintySampling "entropy_based" (StaticMethod EntropyBased) true.


(** A small run used to exercise the controller: warm-up 2, patience 1,
    recall 0.5 at epoch 0 and 0.6 from then on. *)
Definition demo_args : Args Q :=
  {| start_epoch := 0; epochs := 8; labeled_warmup_epochs := 2; add_labeled_epochs := 1;
     add_labeled := (1 # 10)%Q; stop_labeled := (1 # 2)%Q |}.

Definition demo_validate (epoch : Z) : Q :=
  if (epoch =? 0)%Z then 1 # 2 else 3 # 5.

Definition demo_trace : list (Event Q) := fst (main demo_args (1 # 4)%Q demo_validate).

Definition no_event : Event Q :=
  mkEvent 0 0 false 0 false (initial_state 0%Q) (initial_state 0%Q).

(** The same run with the labeled amounts as Python floats (ratios): start
    0.1, add 0.1, stop 0.3.  The literals are the binary64 values Python
    reads [0.1] and [0.3] as. *)
Module Binary64.
Import PrimFloat.

Definition tenth : float := 0x1.999999999999ap-4%float.
Definition three_tenths : float := 0x1.3333333333333p-2%float.

Definition demo_args : Args float :=
  {| start_epoch := 0; epochs := 8; labeled_warmup_epochs := 2; add_labeled_epochs := 1;
     add_labeled := tenth; stop_labeled := three_tenths |}.

Definition demo_trace : list (Event float) := fst (main demo_args tenth demo_validate).

Definition no_event : Event float :=
  mkEvent 0 0 false 0 false (initial_state tenth) (initial_state tenth).

End Binary64.

(* ----------------------------------------------------------------- *)
(** ** utils.py — [AverageMeter]

    Batch sizes and [count] are Python integers.  Values ([val], [sum],
    [avg]) are Python floats; the meter multiplies a value by a batch size,
    adds to the running sum and divides the sum by the count.  These
    operations are an interface of which no law of arithmetic is assumed
    (float arithmetic rounds).  [None] is the [ZeroDivisionError] of
    [self.sum / self.count]. *)

Class MeterValue (V : Type) : Type := {
  value_zero : V;
  value_times : V -> Z -> V;
  value_plus : V -> V -> V;
  value_over : V -> Z -> V
}.

(** Exact values, for examples that do not round. *)
#[export] Instance exact_values : MeterValue Q :=
  {| value_zero := 0%Q;
     value_times := fun v n => (v * inject_Z n)%Q;
     value_plus := Qplus;
     value_over := fun v n => (v / inject_Z n)%Q |}.

Module AverageMeter.

Record t (V : Type) : Type := mk {
  val : V;
  avg : V;
  sum : V;
  count : Z
}.
Arguments mk {V}.
Arguments val {V}.
Arguments avg {V}.
Arguments sum {V}.
Arguments count {V}.

Section Meter.

Context {V : Type} {values : MeterValue V}.

(** [__init__] and [reset]. *)
Definition init : t V :=
  {| val := value_zero; avg := value_zero; sum := value_zero; count := 0 |}.

Definition reset (self : t V) : t V :=
  {| val := value_zero; avg := value_zero; sum := value_zero; count := 0 |}.

Definition update (self : t V) (v : V) (n : Z) : option (t V) :=
  let sum' := value_plus (sum self) (value_times v n) in
  let count' := (count self + n)%Z in
  if (count' =? 0)%Z then None
  else Some {| val := v; sum := sum'; count := count'; avg := value_over sum' count' |}.

(** [for (v, n) in batches: self.update(v, n)]. *)
Fixpoint update_all (self : t V) (batches : list (V * Z)) : option (t V) :=
  match batches with
  | [] => Some self
  | (v, n) :: rest =>
      match update self v n with
      | Some self' => update_all self' rest
      | None => None
      end
  end.

End Meter.

End AverageMeter.

(* ----------------------------------------------------------------- *)
(** ** utils.py — [get_cosine_schedule_with_warmup]

    [_lr_lambda], the factor handed to [LambdaLR]; steps are integers,
    the factor a float modelled as a real number. *)

Definition lr_lambda (num_warmup_steps num_training_steps : Z) (num_cycles : R)
  (current_step : Z) : R :=
  if (current_step <? num_warmup_steps)%Z
  then (IZR current_step / IZR (Z.max 1 num_warmup_steps))%R
  else
    let no_progress :=
      (IZR (current_step - num_warmup_steps)
       / IZR (Z.max 1 (num_training_steps - num_warmup_steps)))%R in
    Rmax 0 (cos (PI * num_cycles * no_progress)).

(** The default [num_cycles=7./16.]. *)
Definition default_num_cycles : R := (7 / 16)%R.

(* ----------------------------------------------------------------- *)
(** ** utils.py — [loss_module_objective_func]

    On 1-D tensors.  The function returns a tensor (reduction ['none']),
    a scalar (['mean']) or Python's [None]; the outer [None] of the model
    is a raised exception (the failed [assert], or a shape mismatch). *)

Inductive LossValue : Type :=
| LossTensor (t : Tensor1)
| LossScalar (x : R)
| LossNone.

(** [torch.clamp(x, min=lo)] and [torch.sign] on one entry. *)
Definition clamp_min (lo x : R) : R := Rmax lo x.

Definition sign (x : R) : R :=
  if Rlt_dec 0 x then 1%R else if Rlt_dec x 0 then (-1)%R else 0%R.

(** [(t - t.flip(0))[:len(t) // 2]]. *)
Definition flip_difference (t : Tensor1) : Tensor1 :=
  firstn (length t / 2)
    (map (fun ab => (fst ab - snd ab)%R) (combine t (rev t))).

Definition loss_module_objective_func (pred target : Tensor1) (margin : R)
  (reduction : string) : option LossValue :=
  if negb (Nat.eqb (length pred mod 2) 0) then None
  else
    let pred := flip_difference pred in
    let target := flip_difference target in
    let indicator_func := map (fun t => (2 * sign (clamp_min 0 t) - 1)%R) target in
    if String.eqb reduction "mean" then
      match mul_elementwise indicator_func pred with
      | Some ip =>
          let loss := Rsum (map (fun x => clamp_min 0 (margin - x)) ip) in
          Some (LossScalar (loss / INR (length pred))%R)
      | None => None
      end
    else if String.eqb reduction "none" then
      match mul_elementwise indicator_func pred with
      | Some ip => Some (LossTensor (map (fun x => clamp_min 0 (margin - x)) ip))
      | None => None
      end
    else Some LossNone.

(* ----------------------------------------------------------------- *)
(** ** utils.py — [NTXent.mask_correlated_samples]

    A 2-D boolean tensor is the list of its rows. *)

(** [mask[r, c] = v]. *)
Definition set_entry (r c : nat) (v : bool) (mask : list (list bool)) : list (list bool) :=
  set_at r (set_at c v (nth r mask [])) mask.

(** [mask.fill_diagonal_(v)], [i] being the index of the first row of
    [mask]. *)
Fixpoint fill_diagonal_from (i : nat) (v : bool) (mask : list (list bool))
  : list (list bool) :=
  match mask with
  | [] => []
  | row :: rest => set_at i v row :: fill_diagonal_from (S i) v rest
  end.

Definition mask_correlated_samples (batch_size : nat) : list (list bool) :=
  let mask := repeat (repeat true (batch_size * 2)) (batch_size * 2) in
  let mask := fill_diagonal_from 0 false mask in
  fold_left
    (fun mask i =>
       let mask := set_entry i (batch_size + i) false mask in
       set_entry (batch_size + i) i false mask)
    (seq 0 batch_size) mask.

(** The table with entry [f r c] in row [r], column [c], for [r, c < n]. *)
Definition tabulate (n : nat) (f : nat -> nat -> bool) : list (list bool) :=
  map (fun r => map (f r) (seq 0 n)) (seq 0 n).

(** Whether columns [r] and [c] hold the same example or the two views of
    one example. *)
Definition correlated (batch_size r c : nat) : bool :=
  Nat.eqb c r || Nat.eqb c (batch_size + r) || Nat.eqb r (batch_size + c).

(** The number of sampling events among [evs]. *)
Definition sampling_events {A : Type} (evs : list (Event A)) : nat :=
  length (filter ev_sampled evs).

(** [current_labeled] after [n] sampling events: [add_labeled] added [n]
    times to the initial amount, one [+=] after the other. *)
Definition labeled_after {A : Type} {numbers : Number A} (args : Args A)
  (start_labeled : A) (n : nat) : A :=
  Nat.iter n (fun amount => number_add amount (add_labeled args)) start_labeled.

(** What the sampling events among [evs] add to [metrics_per_cycle], in
    order: the best report each of them found, nothing where none was set. *)
Definition cycle_reports {A : Type} (evs : list (Event A)) : list Report :=
  flat_map (fun ev => if ev_sampled ev then pd_concat [] (best_report (ev_before ev))
                      else []) evs.

(** The best epoch so far, as the controller state records it: nothing
    yet, or an epoch [e] with recall [r], its report and its model. *)
Definition records_best {A : Type} (validate : Z -> Q) (s : CycleState A) : Prop :=
  (best_report s = None /\ best_model s = None /\ best_recall s = 0%Q)
  \/ (exists e, best_report s = Some (e, validate e) /\ best_model s = Some e
                /\ best_recall s = validate e /\ (0 < validate e)%Q).

(* ----------------------------------------------------------------- *)
(** ** utils.py — [create_loaders] and [perform_sampling]

    A data loader is represented by the index list of its dataset: the
    unlabeled loader ([shuffle=False]) enumerates it in order.
    [random.shuffle] permutes [unlabeled_indices] in place, so the caller's
    sequence changes too: the shuffled sequence is returned next to the
    datasets.  [random.shuffle] is a parameter. *)

Record Datasets : Type := mkDatasets {
  labeled_dataset_indices : list Z;
  unlabeled_dataset_indices : list Z
}.

Section Sampling.

Variable shuffle : list Z -> list Z.

Definition create_loaders (labeled_indices unlabeled_indices : list Z)
  (unlabeled_subset_num : nat) : Datasets * list Z :=
  let unlabeled_indices := shuffle unlabeled_indices in
  (mkDatasets labeled_indices (firstn unlabeled_subset_num unlabeled_indices),
   unlabeled_indices).

(** The pseudo-labeling loop of [perform_sampling]:
    [for i, j in enumerate(samples_indices)], writing
    [labeled_dataset.targets[j] = samples_targets[i]] unless it already
    holds.  An index out of range raises. *)
Fixpoint relabel (targets : list Z) (samples_indices samples_targets : list Z) (i : nat)
  : option (list Z) :=
  match samples_indices with
  | [] => Some targets
  | j :: rest =>
      match norm_index (length targets) j, nth_error samples_targets i with
      | Some j', Some t =>
          let targets :=
            if Z.eqb (nth j' targets 0%Z) t then targets else set_at j' t targets in
          relabel targets rest samples_targets (S i)
      | _, _ => None
      end
  end.

(** [perform_sampling].  The calls [uncertainty_sampler.get_samples(...)]
    and [pseudo_labeler.get_samples(...)] are represented by what they
    return ([None]: they raise); the result is the new datasets, the new
    labeled and unlabeled sequences and the targets.  Printing is left
    out. *)
Definition perform_sampling (weak_supervision_strategy : string)
  (uncertainty_sampler_get_samples : option (list Z))
  (pseudo_labeler_get_samples : option (list Z * list Z))
  (env : RunEnv) (add_labeled_num unlabeled_subset_num : nat)
  (labeled_indices unlabeled_indices targets : list Z)
  : option (Datasets * list Z * list Z * list Z) :=
  if String.eqb weak_supervision_strategy "active_learning" then
    match uncertainty_sampler_get_samples with
    | None => None
    | Some samples_indices =>
        match postprocess_indices labeled_indices unlabeled_indices samples_indices with
        | None => None
        | Some (labeled_indices, unlabeled_indices) =>
            let (datasets, unlabeled_indices) :=
              create_loaders labeled_indices unlabeled_indices unlabeled_subset_num in
            Some (datasets, labeled_indices, unlabeled_indices, targets)
        end
    end
  else if String.eqb weak_supervision_strategy "semi_supervised" then
    match pseudo_labeler_get_samples with
    | None => None
    | Some (samples_indices, samples_targets) =>
        match postprocess_indices labeled_indices unlabeled_indices samples_indices with
        | None => None
        | Some (labeled_indices, unlabeled_indices) =>
            match relabel targets samples_indices samples_targets 0 with
            | None => None
            | Some targets =>
                let (datasets, unlabeled_indices) :=
                  create_loaders labeled_indices unlabeled_indices unlabeled_subset_num in
                Some (datasets, labeled_indices, unlabeled_indices, targets)
            end
        end
    end
  else
    match stratified_random_sampling env unlabeled_indices add_labeled_num with
    | None => None
    | Some samples_indices =>
        match postprocess_indices labeled_indices unlabeled_indices
                (map Z.of_nat samples_indices) with
        | None => None
        | Some (labeled_indices, unlabeled_indices) =>
            let (datasets, unlabeled_indices) :=
              create_loaders labeled_indices unlabeled_indices unlabeled_subset_num in
            Some (datasets, labeled_indices, unlabeled_indices, targets)
        end
    end.

End Sampling.

(* ----------------------------------------------------------------- *)
(** ** The entropy sampler over float32 values

    Above, tensor entries are real numbers, which leaves out what float32
    arithmetic adds: rounding (with underflow to zero), the infinities and
    NaN.  This module reads [F.softmax], [entropy_based] and [get_samples]
    over float32 values.  A finite value is a real number; an operation on
    finite values yields its exact result rounded by [rnd], a parameter of
    which only the properties collected in [rounding] are used (they hold of
    rounding to the nearest float32); on infinities and NaN the operations
    are those of IEEE 754.  The sign of a zero is not modelled: a divisor
    here is a sum of exponentials, never a negative zero.  [torch.sort]
    orders NaN above every number. *)

Module Float32.

Inductive float32 : Type :=
| Finite (x : R)
| Infinity (negative : bool)
| NaN.

Definition Tensor1 : Type := list float32.
Definition Tensor2 : Type := list (list float32).

(** The order of the numbers, with NaN above all of them. *)
Definition float_le (a b : float32) : Prop :=
  match a, b with
  | _, NaN => True
  | NaN, _ => False
  | Infinity true, _ => True
  | _, Infinity false => True
  | Finite x, Finite y => (x <= y)%R
  | _, _ => False
  end.

Definition float_leb (a b : float32) : bool :=
  match a, b with
  | _, NaN => true
  | NaN, _ => false
  | Infinity true, _ => true
  | _, Infinity false => true
  | Finite x, Finite y => if Rle_dec x y then true else false
  | _, _ => false
  end.

(** The float32 values: [m * 2^a / 2^b] with a 24-bit [m]. *)
Definition representable (x : R) : Prop :=
  exists (m : Z) (a b : nat),
    (Z.abs m < 2 ^ 24)%Z /\ a <= 104 /\ b <= 149 /\ x = (IZR m * 2 ^ a / 2 ^ b)%R.

(** What is used of rounding to float32: a float32 value is not changed,
    rounding is monotone, and a number of magnitude at most [2^-150], half
    the smallest positive float32, becomes zero. *)
Record rounding (rnd : R -> float32) : Prop := {
  rnd_exact : forall x, representable x -> rnd x = Finite x;
  rnd_monotone : forall x y, (x <= y)%R -> float_le (rnd x) (rnd y);
  rnd_underflow : forall x, (Rabs x <= / 2 ^ 150)%R -> rnd x = Finite 0
}.

(** A float32 probability: zero, or a value between the smallest positive
    float32 and 1. *)
Definition probability (x : float32) : Prop :=
  exists p, x = Finite p /\ (p = 0 \/ / 2 ^ 149 <= p <= 1)%R.

Definition is_zero (x : R) : bool := if Req_dec_T x 0 then true else false.
Definition is_negative (x : R) : bool := if Rlt_dec x 0 then true else false.

Section Sampler.

Variable rnd : R -> float32.

Definition fneg (a : float32) : float32 :=
  match a with
  | Finite x => Finite (- x)
  | Infinity s => Infinity (negb s)
  | NaN => NaN
  end.

Definition fadd (a b : float32) : float32 :=
  match a, b with
  | NaN, _ | _, NaN => NaN
  | Infinity s, Infinity t => if Bool.eqb s t then Infinity s else NaN
  | Infinity s, Finite _ | Finite _, Infinity s => Infinity s
  | Finite x, Finite y => rnd (x + y)
  end.

Definition fsub (a b : float32) : float32 := fadd a (fneg b).

Definition fmul (a b : float32) : float32 :=
  match a, b with
  | NaN, _ | _, NaN => NaN
  | Infinity s, Infinity t => Infinity (xorb s t)
  | Infinity s, Finite x | Finite x, Infinity s =>
      if is_zero x then NaN else Infinity (xorb s (is_negative x))
  | Finite x, Finite y => rnd (x * y)
  end.

Definition fdiv (a b : float32) : float32 :=
  match a, b with
  | NaN, _ | _, NaN => NaN
  | Infinity _, Infinity _ => NaN
  | Infinity s, Finite y => Infinity (xorb s (is_negative y))
  | Finite _, Infinity _ => Finite 0
  | Finite x, Finite y =>
      if is_zero y then (if is_zero x then NaN else Infinity (is_negative x))
      else rnd (x / y)
  end.

(** [torch.exp] and [torch.log].  (The library routines are accurate to
    the last place rather than correctly rounded; what [rounding] says
    holds of their results all the same.) *)
Definition fexp (a : float32) : float32 :=
  match a with
  | NaN => NaN
  | Infinity true => Finite 0
  | Infinity false => Infinity false
  | Finite x => rnd (exp x)
  end.

Definition flog (a : float32) : float32 :=
  match a with
  | NaN => NaN
  | Infinity true => NaN
  | Infinity false => Infinity false
  | Finite x =>
      if is_zero x then Infinity true
      else if is_negative x then NaN
      else rnd (ln x)
  end.

(** The maximum of a reduction: NaN wins. *)
Definition fmax (a b : float32) : float32 :=
  match a, b with
  | NaN, _ | _, NaN => NaN
  | _, _ => if float_leb a b then b else a
  end.

(** [torch.sum(., dim=1)] on one row.  The terms are added from left to
    right; torch adds them in an order of its own, which changes the
    rounding of a finite sum and nothing else. *)
Definition fsum (row : list float32) : float32 := fold_left fadd row (Finite 0).

(** [F.softmax(output, dim=1)]: the exponentials of the entries less the
    row maximum, over their sum. *)
Definition softmax_row (row : list float32) : list float32 :=
  match row with
  | [] => []
  | x :: t =>
      let row_max := fold_left fmax t x in
      let exps := map (fun y => fexp (fsub y row_max)) row in
      let total := fsum exps in
      map (fun e => fdiv e total) exps
  end.

Definition softmax (output : Tensor2) : Tensor2 := map softmax_row output.

Definition entropy_based (probs : Tensor2) (_ : Tensor2) (__ : option Tensor2)
  : option Tensor1 :=
  let log_probs := map (map flog) probs in
  Some (map (fun pl => fsum (map (fun ab => fmul (fneg (fst ab)) (snd ab))
                               (combine (fst pl) (snd pl))))
          (combine probs log_probs)).

(** One term [-p * log p] of the entropy. *)
Definition entropy_term (p : float32) : float32 := fmul (fneg p) (flog p).

(** [samples.argsort(descending=...)]: the contract, as for real-valued
    scores, over the order that has NaN on top. *)
Definition ordered (descending : bool) (x y : float32) : Prop :=
  if descending then float_le y x else float_le x y.

Definition argsort_contract (argsort : bool -> Tensor1 -> list nat) : Prop :=
  forall descending samples,
    Permutation (argsort descending samples) (seq 0 (length samples)) /\
    StronglySorted (fun i j => ordered descending (nth i samples NaN) (nth j samples NaN))
      (argsort descending samples).

Variable X : Type.
Variable model : list X -> Tensor2 * Tensor2.
Variable argsort : bool -> Tensor1 -> list nat.

(** The four scoring functions other than the entropy, over float32 values:
    a parameter. *)
Variable other_scores :
  ScoringFunction -> Tensor2 -> Tensor2 -> option Tensor2 -> option Tensor1.

Definition call_method (method : Attribute) (probs feat : Tensor2)
  (feat_train : option Tensor2) : option Tensor1 :=
  match method with
  | StaticMethod EntropyBased => entropy_based probs feat feat_train
  | StaticMethod f => other_scores f probs feat feat_train
  | _ => None
  end.

Definition call_model (data_x : list X) : M X (Tensor2 * Tensor2) :=
  fun log => Some (model data_x, log ++ [data_x]).

Definition select_samples (self : UncertaintySampling) (samples : Tensor1) (number : nat)
  : list nat :=
  if String.eqb (uncertainty_sampling_method self) "entropy_based"
  then firstn number (argsort true samples)
  else firstn number (argsort false samples).

Definition get_samples (self : UncertaintySampling) (train_loader unlabeled_loader : Loader X)
  (number : nat) : M X (list nat) :=
  bind (for_each train_loader
          (fun b feat_train =>
             bind (call_model (fst b)) (fun out =>
             ret (Some (cat_onto feat_train (snd out)))))
          None) (fun feat_train =>
  bind (for_each unlabeled_loader
          (fun b samples =>
             bind (call_model (fst b)) (fun out =>
             bind (lift (call_method (method self) (softmax (fst out)) (snd out) feat_train))
               (fun score =>
             ret (Some (cat_onto samples score)))))
          None) (fun samples =>
  match samples with
  | None => lift None
  | Some samples => ret (select_samples self samples number)
  end)).

End Sampler.

Arguments call_model {X}.
Arguments get_samples rnd {X}.

(** A rounding that meets [rounding]: exact, except that magnitudes of at
    most [2^-150] become zero. *)
Definition flush_to_zero (x : R) : float32 :=
  if Rle_dec (Rabs x) (/ 2 ^ 150) then Finite 0 else Finite x.

(** An argsort by insertion over the order with NaN on top. *)
Definition ordered_b (descending : bool) (x y : float32) : bool :=
  if descending then float_leb y x else float_leb x y.

Fixpoint insert_position (descending : bool) (samples : Tensor1) (i : nat) (l : list nat)
  : list nat :=
  match l with
  | [] => [i]
  | j :: t =>
      if ordered_b descending (nth i samples NaN) (nth j samples NaN)
      then i :: l
      else j :: insert_position descending samples i t
  end.

Definition stable_argsort (descending : bool) (samples : Tensor1) : list nat :=
  fold_right (insert_position descending samples) [] (seq 0 (length samples)).

(** A model for exercising [get_samples]: input 1 gets the logits
    [0, 200, 0], every other input the logits [0, 0, 0]; the feature is
    [1]. *)
Definition saturating_model (data_x : list nat) : Tensor2 * Tensor2 :=
  (map (fun x => if Nat.eqb x 1 then [Finite 0; Finite 200; Finite 0]
                 else [Finite 0; Finite 0; Finite 0]) data_x,
   map (fun _ => [Finite 1]) data_x).

(** No other scoring function is called in the examples. *)
Definition no_other_scores (f : ScoringFunction) (probs feat : Tensor2)
  (feat_train : option Tensor2) : option Tensor1 := None.

End Float32.

(* ================================================================= *)
(** * Part II — properties *)
(* ================================================================= *)

(* ----------------------------------------------------------------- *)
(** ** The index-set manager *)

Lemma set_at_length {A : Type} (i : nat) (v : A) (l : list A) :
  length (set_at i v l) = length l.
Proof.
  revert i; induction l as [|h t IH]; intros [|j]; simpl; auto.
Qed.

Lemma norm_index_positions (n : nat) (p : Z) :
  (- Z.of_nat n <= p < Z.of_nat n)%Z ->
  norm_index n p = Some (Z.to_nat (p mod Z.of_nat n)) /\
  (Z.to_nat (p mod Z.of_nat n) < n)%nat.
Proof.
  intros Hp. unfold norm_index.
  assert (Hn : (0 < Z.of_nat n)%Z) by lia.
  pose proof (Z.mod_pos_bound p (Z.of_nat n) Hn) as Hb.
  split; [|lia].
  destruct ((0 <=? p) && (p <? Z.of_nat n))%Z eqn:E1.
  - apply andb_true_iff in E1 as [H1 H2].
    apply Z.leb_le in H1. apply Z.ltb_lt in H2.
    now rewrite Z.mod_small by lia.
  - assert (Hneg : (p < 0)%Z).
    { apply andb_false_iff in E1 as [H|H];
        [apply Z.leb_gt in H | apply Z.ltb_ge in H]; lia. }
    replace ((- Z.of_nat n <=? p) && (p <? 0))%Z with true.
    + f_equal. f_equal.
      apply Z.mod_unique with (q := (-1)%Z); lia.
    + symmetry. apply andb_true_iff. split; [apply Z.leb_le | apply Z.ltb_lt]; lia.
Qed.

Lemma norm_index_none (n : nat) (p : Z) :
  ~ (- Z.of_nat n <= p < Z.of_nat n)%Z -> norm_index n p = None.
Proof.
  intros Hp. unfold norm_index.
  destruct ((0 <=? p) && (p <? Z.of_nat n))%Z eqn:E1.
  - apply andb_true_iff in E1 as [H1 H2].
    apply Z.leb_le in H1. apply Z.ltb_lt in H2. lia.
  - destruct ((- Z.of_nat n <=? p) && (p <? 0))%Z eqn:E2; auto.
    apply andb_true_iff in E2 as [H1 H2].
    apply Z.leb_le in H1. apply Z.ltb_lt in H2. lia.
Qed.

Lemma selected_In (ns : list nat) (i : nat) :
  selected ns i = true <-> In i ns.
Proof.
  unfold selected. rewrite existsb_exists. split.
  - intros (x & Hx & E). apply Nat.eqb_eq in E. now subst.
  - intros H. exists i. split; auto. apply Nat.eqb_refl.
Qed.

Lemma cleared_length (ns : list nat) (i : nat) (mask : list bool) :
  length (cleared ns i mask) = length mask.
Proof.
  revert i; induction mask as [|b m IH]; intros i; simpl; auto.
Qed.

Lemma cleared_below (ns : list nat) (k i : nat) (mask : list bool) :
  (k < i)%nat -> cleared (k :: ns) i mask = cleared ns i mask.
Proof.
  revert i; induction mask as [|b m IH]; intros i Hk; simpl; auto.
  rewrite IH by lia. unfold selected; simpl.
  replace (Nat.eqb i k) with false; auto.
  symmetry. apply Nat.eqb_neq. lia.
Qed.

Lemma cleared_set_at (ns : list nat) (i j : nat) (mask : list bool) :
  cleared ns i (set_at j false mask) = cleared ((i + j)%nat :: ns) i mask.
Proof.
  revert i j; induction mask as [|b m IH]; intros i [|j]; simpl; auto.
  - rewrite cleared_below by lia. unfold selected; simpl.
    rewrite Nat.add_0_r, Nat.eqb_refl. simpl. now rewrite andb_false_r.
  - rewrite IH. replace (S i + j)%nat with (i + S j)%nat by lia.
    unfold selected; simpl.
    replace (Nat.eqb i (i + S j)) with false; auto.
    symmetry. apply Nat.eqb_neq. lia.
Qed.

Lemma cleared_nil (i : nat) (mask : list bool) : cleared [] i mask = mask.
Proof.
  revert i; induction mask as [|b m IH]; intros i; simpl; auto.
  rewrite IH. unfold selected; simpl. now rewrite andb_true_r.
Qed.

(** The mask assignment succeeds exactly when every position is in range,
    and then clears the positions named, nothing else. *)
Lemma clear_mask_positions (samples_indices : list Z) (mask : list bool) :
  Forall (fun p => - Z.of_nat (length mask) <= p < Z.of_nat (length mask))%Z samples_indices ->
  clear_mask mask samples_indices
  = Some (cleared (positions (length mask) samples_indices) 0 mask).
Proof.
  revert mask; induction samples_indices as [|p rest IH]; intros mask Hall; simpl.
  - now rewrite cleared_nil.
  - inversion Hall as [|? ? Hp Hrest]; subst.
    destruct (norm_index_positions _ _ Hp) as [-> _].
    rewrite IH by (now rewrite set_at_length).
    rewrite set_at_length, cleared_set_at. simpl.
    reflexivity.
Qed.

Lemma clear_mask_out_of_range (samples_indices : list Z) (mask : list bool) :
  ~ Forall (fun p => - Z.of_nat (length mask) <= p < Z.of_nat (length mask))%Z samples_indices ->
  clear_mask mask samples_indices = None.
Proof.
  revert mask; induction samples_indices as [|p rest IH]; intros mask Hall; simpl.
  - exfalso. apply Hall. constructor.
  - destruct (norm_index (length mask) p) eqn:E.
    + apply IH. rewrite set_at_length. intros Hrest. apply Hall. constructor; auto.
      destruct (Z_lt_le_dec p (- Z.of_nat (length mask)));
        [|destruct (Z_lt_le_dec p (Z.of_nat (length mask)))]; try lia;
        rewrite norm_index_none in E by lia; discriminate.
    + reflexivity.
Qed.

Lemma mask_select_cleared {A : Type} (ns : list nat) (i : nat) (a : list A) :
  mask_select (cleared ns i (repeat true (length a))) a
  = pick_from (fun j => negb (selected ns j)) i a.
Proof.
  revert i; induction a as [|x a IH]; intros i; simpl; auto.
  rewrite IH. reflexivity.
Qed.

Lemma mask_select_not_cleared {A : Type} (ns : list nat) (i : nat) (a : list A) :
  mask_select (map negb (cleared ns i (repeat true (length a)))) a
  = pick_from (selected ns) i a.
Proof.
  revert i; induction a as [|x a IH]; intros i; simpl; auto.
  rewrite IH, negb_involutive. reflexivity.
Qed.

(** [postprocess_indices] in closed form. *)
Lemma postprocess_indices_spec (labeled unlabeled : list Z) (samples : list Z) :
  Forall (fun p => - Z.of_nat (length unlabeled) <= p < Z.of_nat (length unlabeled))%Z samples ->
  postprocess_indices labeled unlabeled samples
  = Some (labeled ++ pick_from (selected (positions (length unlabeled) samples)) 0 unlabeled,
          pick_from (fun j => negb (selected (positions (length unlabeled) samples) j)) 0 unlabeled).
Proof.
  intros Hall. unfold postprocess_indices.
  rewrite clear_mask_positions; rewrite repeat_length; auto.
  now rewrite mask_select_cleared, mask_select_not_cleared.
Qed.

Lemma pick_from_partition {A : Type} (keep : nat -> bool) (i : nat) (a : list A) :
  Permutation (pick_from keep i a ++ pick_from (fun j => negb (keep j)) i a) a.
Proof.
  revert i; induction a as [|x a IH]; intros i; simpl; auto.
  destruct (keep i); simpl.
  - now constructor.
  - rewrite <- Permutation_middle. now constructor.
Qed.

Lemma pick_from_length {A : Type} (keep : nat -> bool) (i : nat) (a : list A) :
  length (pick_from keep i a) = length (filter keep (seq i (length a))).
Proof.
  revert i; induction a as [|x a IH]; intros i; simpl; auto.
  destruct (keep i); simpl; now rewrite IH.
Qed.

Lemma filter_selected_perm (ns : list nat) (n : nat) :
  Forall (fun k => k < n)%nat ns ->
  Permutation (filter (selected ns) (seq 0 n)) (nodup Nat.eq_dec ns).
Proof.
  intros Hall. apply NoDup_Permutation.
  - apply NoDup_filter, seq_NoDup.
  - apply NoDup_nodup.
  - intros x. rewrite filter_In, nodup_In, in_seq, selected_In.
    rewrite Forall_forall in Hall. split; [tauto|].
    intros H. specialize (Hall _ H). split; [lia|auto].
Qed.

Lemma positions_bound (n : nat) (samples : list Z) :
  Forall (fun p => - Z.of_nat n <= p < Z.of_nat n)%Z samples ->
  Forall (fun k => k < n)%nat (positions n samples).
Proof.
  induction 1 as [|p l Hp _ IH]; simpl; constructor; auto.
  now apply norm_index_positions.
Qed.

Lemma promoted_count (unlabeled samples : list Z) :
  Forall (fun p => - Z.of_nat (length unlabeled) <= p < Z.of_nat (length unlabeled))%Z samples ->
  length (pick_from (selected (positions (length unlabeled) samples)) 0 unlabeled)
  = length (nodup Nat.eq_dec (positions (length unlabeled) samples)).
Proof.
  intros Hall. rewrite pick_from_length.
  apply Permutation_length, filter_selected_perm, positions_bound, Hall.
Qed.

Lemma partition_disjoint {A : Type} (keep : nat -> bool) (a : list A) :
  NoDup a ->
  disjoint_seq (pick_from keep 0 a) (pick_from (fun j => negb (keep j)) 0 a).
Proof.
  intros Hnd x H1 H2.
  pose proof (Permutation_NoDup (Permutation_sym (pick_from_partition keep 0 a)) Hnd) as Hnd'.
  apply in_split in H1 as (l1 & l2 & E). rewrite E in Hnd'.
  rewrite <- app_assoc in Hnd'. simpl in Hnd'.
  apply NoDup_remove_2 in Hnd'. apply Hnd'.
  rewrite app_assoc. apply in_or_app. now right.
Qed.

Lemma pick_from_In {A : Type} (keep : nat -> bool) (i : nat) (a : list A) (x : A) :
  In x (pick_from keep i a) -> In x a.
Proof.
  revert i; induction a as [|y a IH]; intros i; simpl; auto.
  destruct (keep i); simpl; intros H; [destruct H|]; eauto.
Qed.

Lemma positions_nonneg (n : nat) (samples : list Z) :
  Forall (fun p => 0 <= p < Z.of_nat n)%Z samples ->
  positions n samples = map Z.to_nat samples.
Proof.
  induction 1 as [|p l Hp _ IH]; simpl; auto.
  rewrite IH, Z.mod_small by lia. reflexivity.
Qed.

Lemma nodup_fixed {A : Type} (dec : forall x y : A, {x = y} + {x <> y}) (l : list A) :
  NoDup l -> nodup dec l = l.
Proof. apply nodup_fixed_point. Qed.



Lemma map_to_nat_NoDup (samples : list Z) :
  Forall (fun p => 0 <= p)%Z samples -> NoDup samples -> NoDup (map Z.to_nat samples).
Proof.
  intros Hall Hnd. apply Finite.Injective_map_NoDup_in; auto.
  rewrite Forall_forall in Hall.
  intros x y Hx Hy E. apply Hall in Hx, Hy. lia.
Qed.

Lemma promoted_disjoint (labeled unlabeled : list Z) (ns : list nat) :
  disjoint_seq labeled unlabeled -> NoDup unlabeled ->
  disjoint_seq (labeled ++ pick_from (selected ns) 0 unlabeled)
               (pick_from (fun j => negb (selected ns j)) 0 unlabeled).
Proof.
  intros Hdis Hnd x H1 H2. apply in_app_or in H1 as [H1|H1].
  - apply (Hdis x H1). eapply pick_from_In, H2.
  - eapply (partition_disjoint (selected ns)); eauto.
Qed.

Lemma promoted_union (labeled unlabeled : list Z) (ns : list nat) :
  Permutation
    ((labeled ++ pick_from (selected ns) 0 unlabeled)
       ++ pick_from (fun j => negb (selected ns j)) 0 unlabeled)
    (labeled ++ unlabeled).
Proof.
  rewrite <- app_assoc. apply Permutation_app_head, pick_from_partition.
Qed.

(** C1, amended.  Promotion of [k] distinct in-range positions: the labeled
    sequence grows by [k] and the unlabeled one shrinks by [k]; the promoted entries
    are the unlabeled entries at the selected positions, unchanged, appended
    to the labeled sequence in their unlabeled-sequence order; the surviving
    entries keep their relative order; the outputs together are the inputs
    together (as multisets), and they are disjoint whenever the inputs are
    disjoint and the unlabeled sequence lists every index once (it is an index
    set).  In particular labeled [0,1,2], unlabeled [3,4,5,6] and selected
    position 1 give labeled [0,1,2,4] and unlabeled [3,5,6]. *)
Theorem postprocess_indices_promotes :
  (forall (labeled unlabeled samples : list Z),
      NoDup samples ->
      Forall (fun p => 0 <= p < Z.of_nat (length unlabeled))%Z samples ->
      exists new_labeled new_unlabeled,
        postprocess_indices labeled unlabeled samples = Some (new_labeled, new_unlabeled) /\
        length new_labeled = (length labeled + length samples)%nat /\
        length new_unlabeled = (length unlabeled - length samples)%nat /\
        Permutation (new_labeled ++ new_unlabeled) (labeled ++ unlabeled) /\
        new_labeled = labeled ++ pick_from (selected (map Z.to_nat samples)) 0 unlabeled /\
        new_unlabeled = pick_from (fun i => negb (selected (map Z.to_nat samples) i)) 0 unlabeled /\
        (disjoint_seq labeled unlabeled -> NoDup unlabeled ->
         disjoint_seq new_labeled new_unlabeled)) /\
  postprocess_indices [0; 1; 2]%Z [3; 4; 5; 6]%Z [1]%Z = Some ([0; 1; 2; 4]%Z, [3; 5; 6]%Z).
Proof.
  split; [|reflexivity].
  intros labeled unlabeled samples Hnd Hrange.
  assert (Hpy : Forall (fun p => - Z.of_nat (length unlabeled) <= p
                                 < Z.of_nat (length unlabeled))%Z samples).
  { eapply Forall_impl; [|exact Hrange]. simpl. intros; lia. }
  pose proof (promoted_count unlabeled samples Hpy) as Hcount.
  rewrite postprocess_indices_spec by exact Hpy.
  rewrite positions_nonneg in * by exact Hrange.
  rewrite nodup_fixed in Hcount.
  2:{ apply map_to_nat_NoDup; auto. eapply Forall_impl; [|exact Hrange]. simpl. intros; lia. }
  rewrite length_map in Hcount.
  pose proof (Permutation_length
                (pick_from_partition (selected (map Z.to_nat samples)) 0 unlabeled)) as Hlen.
  rewrite length_app in Hlen.
  eexists _, _. split; [reflexivity|].
  repeat split.
  - rewrite length_app. lia.
  - lia.
  - apply promoted_union.
  - apply promoted_disjoint.
Qed.

Lemma postprocess_indices_promotes_witness :
  exists new_labeled new_unlabeled,
    postprocess_indices [10; 11]%Z [20; 21; 22; 23]%Z [2; 0]%Z
    = Some (new_labeled, new_unlabeled) /\
    length new_labeled = 4%nat /\
    length new_unlabeled = 2%nat /\
    Permutation (new_labeled ++ new_unlabeled) [10; 11; 20; 21; 22; 23]%Z /\
    new_labeled = [10; 11; 20; 22]%Z /\
    new_unlabeled = [21; 23]%Z /\
    disjoint_seq new_labeled new_unlabeled.
Proof.
  assert (Hnd : NoDup [2; 0]%Z)
    by (repeat constructor; simpl; intuition discriminate).
  assert (Hrange : Forall (fun p => 0 <= p < Z.of_nat (length [20; 21; 22; 23]%Z))%Z [2; 0]%Z)
    by (repeat constructor; simpl; lia).
  destruct (proj1 postprocess_indices_promotes [10; 11]%Z [20; 21; 22; 23]%Z [2; 0]%Z Hnd Hrange)
    as (nl & nu & E & Hl & Hu & Hperm & Hnl & Hnu & Hdis).
  exists nl, nu. repeat split; auto.
  apply Hdis.
  - intros x H1 H2. simpl in H1, H2. intuition lia.
  - repeat constructor; simpl; intuition discriminate.
Defined.

(** C1 as stated fails: disjoint inputs alone do not give disjoint
    outputs.  When the unlabeled sequence lists a dataset index twice,
    promoting one occurrence leaves the other behind: labeled [1],
    unlabeled [5,5] and selected position 0 give labeled [1,5] and
    unlabeled [5]. *)
Lemma postprocess_indices_repeated_index :
  disjoint_seq [1]%Z [5; 5]%Z
  /\ NoDup [0]%Z
  /\ Forall (fun p => 0 <= p < Z.of_nat (length [5; 5]%Z))%Z [0]%Z
  /\ postprocess_indices [1]%Z [5; 5]%Z [0]%Z = Some ([1; 5]%Z, [5]%Z)
  /\ ~ disjoint_seq [1; 5]%Z [5]%Z.
Proof.
  split; [intros x H1 H2; simpl in H1, H2; intuition lia|].
  split; [repeat constructor; simpl; tauto|].
  split; [repeat constructor; simpl; lia|].
  split; [reflexivity|].
  intros H. apply (H 5%Z); simpl; auto.
Qed.



Example postprocess_dup_ex :
  postprocess_indices [0; 1; 2]%Z [3; 4; 5; 6]%Z [1; 3; 1; -1]%Z = Some ([0;1;2;4;6]%Z, [3;5]%Z).
Proof. reflexivity. Qed.

(* ----------------------------------------------------------------- *)
(** ** The cycle controller *)

Section Controller.

Context {A : Type} {numbers : Number A}.
Variable args : Args A.
Variable validate : Z -> Q.

Lemma epoch_loop_cons (epoch : Z) (rest : list Z) (s : CycleState A) :
  epoch_loop args validate (epoch :: rest) s
  = (let (ev, s') := epoch_body args epoch (epoch, validate epoch) s in
     if number_gt (current_labeled s') (stop_labeled args) then ([ev], s')
     else let (evs, sf) := epoch_loop args validate rest s' in (ev :: evs, sf)).
Proof. reflexivity. Qed.

Lemma epoch_loop_run (eps : list Z) (s : CycleState A) :
  run_from args validate s (fst (epoch_loop args validate eps s)).
Proof.
  revert s; induction eps as [|epoch rest IH]; intros s.
  - constructor.
  - rewrite epoch_loop_cons.
    destruct (epoch_body args epoch (epoch, validate epoch) s) as [ev s'] eqn:E.
    destruct (number_gt (current_labeled s') (stop_labeled args)).
    + econstructor; [exact E|constructor].
    + specialize (IH s').
      destruct (epoch_loop args validate rest s') as [evs sf].
      econstructor; eauto.
Qed.

Lemma epoch_body_fields (epoch : Z) (r : Report) (s : CycleState A) (ev : Event A) (s' : CycleState A) :
  epoch_body args epoch r s = (ev, s') ->
  ev_before ev = s /\ ev_after ev = s' /\ ev_epoch ev = epoch /\
  ev_recall ev = macro_avg_recall r.
Proof.
  unfold epoch_body. intros E. injection E as <- <-. cbn. auto.
Qed.

(** The loop body, read off its event. *)
Lemma epoch_body_event (epoch : Z) (r : Report) (s : CycleState A) (ev : Event A) (s' : CycleState A) :
  epoch_body args epoch r s = (ev, s') ->
  ev_is_best ev = Qgtb (macro_avg_recall r) (best_recall s) /\
  ev_counter ev = (if ev_is_best ev then 0 else last_best_epochs s + 1)%Z /\
  ev_sampled ev
  = ((epoch >? labeled_warmup_epochs args) && (ev_counter ev >? add_labeled_epochs args))%Z /\
  last_best_epochs s' = (if ev_sampled ev then 0 else ev_counter ev)%Z /\
  best_recall s'
  = (if ev_sampled ev then best_recall s
     else if ev_is_best ev then macro_avg_recall r else best_recall s).
Proof.
  unfold epoch_body. intros E. injection E as <- <-. cbn.
  repeat split; destruct (_ && _); reflexivity.
Qed.

(** The epochs run are an initial segment of the epochs given, in order. *)
Lemma epoch_loop_epochs (eps : list Z) (s : CycleState A) :
  exists rest, eps = map ev_epoch (fst (epoch_loop args validate eps s)) ++ rest.
Proof.
  revert s; induction eps as [|epoch eps IH]; intros s.
  - now exists [].
  - rewrite epoch_loop_cons.
    destruct (epoch_body args epoch (epoch, validate epoch) s) as [ev s'] eqn:E.
    destruct (epoch_body_fields _ _ _ _ _ E) as (_ & _ & He & _).
    destruct (number_gt (current_labeled s') (stop_labeled args)).
    + exists eps. cbn [fst map app]. now rewrite He.
    + destruct (IH s') as [rest Hrest].
      destruct (epoch_loop args validate eps s') as [evs sf].
      exists rest. cbn [fst map app] in *. now rewrite He, <- Hrest.
Qed.

Lemma range_nth (a b : Z) (i : nat) (d : Z) :
  (i < length (range a b))%nat -> nth i (range a b) d = (a + Z.of_nat i)%Z.
Proof.
  unfold range. rewrite length_map, length_seq. intros Hi.
  rewrite (nth_indep _ d (a + Z.of_nat 0)%Z) by (now rewrite length_map, length_seq).
  rewrite (map_nth (fun i => (a + Z.of_nat i)%Z)), seq_nth by exact Hi.
  reflexivity.
Qed.

(** An invariant of the loop body holds before every event of a run. *)
Lemma run_invariant (Inv : list (Event A) -> CycleState A -> Prop) :
  (forall past s epoch ev s',
      Inv past s -> epoch_body args epoch (epoch, validate epoch) s = (ev, s') ->
      Inv (past ++ [ev]) s') ->
  forall pre ev post s past,
    Inv past s -> run_from args validate s (pre ++ ev :: post) ->
    Inv (past ++ pre) (ev_before ev) /\
    epoch_body args (ev_epoch ev) (ev_epoch ev, validate (ev_epoch ev)) (ev_before ev)
    = (ev, ev_after ev).
Proof.
  intros Hstep pre ev post. induction pre as [|e pre IH]; intros s past Hinv Hrun.
  - simpl in Hrun. inversion Hrun as [|? epoch ? s' ? E Hrest]; subst.
    destruct (epoch_body_fields _ _ _ _ _ E) as (-> & -> & -> & _).
    rewrite app_nil_r. auto.
  - simpl in Hrun. inversion Hrun as [|? epoch ? s' ? E Hrest]; subst.
    replace (past ++ e :: pre) with ((past ++ [e]) ++ pre)
      by (now rewrite <- app_assoc).
    apply (IH s'); eauto.
Qed.

Lemma state_after_snoc (start_labeled : A) (past : list (Event A)) (ev : Event A) :
  state_after start_labeled (past ++ [ev]) = ev_after ev.
Proof. unfold state_after. now rewrite rev_app_distr. Qed.

(** The counter counts the epochs since the last new best or sampling. *)
Lemma counter_invariant (start_labeled : A) (past : list (Event A)) (s : CycleState A) (epoch : Z)
  (ev : Event A) (s' : CycleState A) :
  last_best_epochs s = stagnant_epochs (rev past) /\ s = state_after start_labeled past ->
  epoch_body args epoch (epoch, validate epoch) s = (ev, s') ->
  last_best_epochs s' = stagnant_epochs (rev (past ++ [ev]))
  /\ s' = state_after start_labeled (past ++ [ev]).
Proof.
  intros [Hc _] E. rewrite state_after_snoc.
  destruct (epoch_body_fields _ _ _ _ _ E) as (_ & Ha & _). split; [|now rewrite Ha].
  destruct (epoch_body_event _ _ _ _ _ E) as (_ & Hcnt & _ & Hnext & _).
  rewrite rev_app_distr. cbn [rev app stagnant_epochs].
  rewrite Hnext, Hcnt, <- Hc.
  destruct (ev_is_best ev), (ev_sampled ev); cbn [orb]; lia.
Qed.

Lemma sampling_condition (epoch counter : Z) :
  ((epoch >? labeled_warmup_epochs args) && (counter >? add_labeled_epochs args))%Z = true
  <-> (epoch > labeled_warmup_epochs args /\ counter > add_labeled_epochs args)%Z.
Proof.
  rewrite andb_true_iff, !Z.gtb_ltb, !Z.ltb_lt. lia.
Qed.

(** C2. For every sequence of validation recalls and every epoch the loop
    runs (the epochs run are [start_epoch], [start_epoch + 1], ... in
    order): the counter is set to 0 when the epoch's recall is a new best and
    is the previous counter plus 1 otherwise, so that it counts the
    consecutive epochs without a new best since the last new best or
    sampling event; sampling fires at the epoch if and only if the epoch
    index exceeds [labeled_warmup_epochs] and this counter exceeds
    [add_labeled_epochs]; and the counter is reset to 0 when sampling
    fires. *)
Theorem sampling_trigger (start_labeled : A) (pre : list (Event A)) (ev : Event A)
  (post : list (Event A)) :
  fst (main args start_labeled validate) = pre ++ ev :: post ->
  ev_epoch ev = (start_epoch args + Z.of_nat (length pre))%Z /\
  ev_before ev = state_after start_labeled pre /\
  ev_recall ev = validate (ev_epoch ev) /\
  ev_is_best ev = Qgtb (ev_recall ev) (best_recall (ev_before ev)) /\
  ev_counter ev = (if ev_is_best ev then 0 else last_best_epochs (ev_before ev) + 1)%Z /\
  ev_counter ev = (if ev_is_best ev then 0 else 1 + stagnant_epochs (rev pre))%Z /\
  (ev_sampled ev = true <->
   (ev_epoch ev > labeled_warmup_epochs args /\ ev_counter ev > add_labeled_epochs args)%Z) /\
  last_best_epochs (ev_after ev) = (if ev_sampled ev then 0 else ev_counter ev)%Z.
Proof.
  intros Hmain.
  assert (Hepoch : ev_epoch ev = (start_epoch args + Z.of_nat (length pre))%Z).
  { destruct (epoch_loop_epochs (range (start_epoch args) (epochs args))
                (initial_state start_labeled)) as [rest Hrest].
    fold (main args start_labeled validate) in Hrest.
    rewrite Hmain, map_app in Hrest. simpl in Hrest. rewrite <- app_assoc in Hrest.
    assert (Hlen : (length pre < length (range (start_epoch args) (epochs args)))%nat).
    { rewrite Hrest, length_app, length_map. simpl. lia. }
    rewrite <- (range_nth _ (epochs args) _ 0%Z Hlen).
    rewrite Hrest at 1. rewrite app_nth2; rewrite length_map; [|lia].
    now rewrite Nat.sub_diag. }
  pose proof (epoch_loop_run (range (start_epoch args) (epochs args))
                (initial_state start_labeled)) as Hrun.
  fold (main args start_labeled validate) in Hrun. rewrite Hmain in Hrun.
  destruct (run_invariant
              (fun past s => last_best_epochs s = stagnant_epochs (rev past)
                             /\ s = state_after start_labeled past)
              (counter_invariant start_labeled) pre ev post
              (initial_state start_labeled) []
              (conj (eq_refl 0%Z) (eq_refl (initial_state start_labeled))) Hrun)
    as [[Hc Hs] E].
  simpl in Hc, Hs.
  destruct (epoch_body_fields _ _ _ _ _ E) as (_ & _ & _ & Hr).
  destruct (epoch_body_event _ _ _ _ _ E) as (Hb & Hcnt & Hsam & Hnext & _).
  cbn in Hr, Hb. rewrite <- Hr in Hb.
  repeat (split; [assumption|]).
  split; [rewrite Hcnt, Hc; destruct (ev_is_best ev); lia|].
  split; [rewrite Hsam; apply sampling_condition|exact Hnext].
Qed.

Lemma Qgtb_true (x y : Q) : Qgtb x y = true -> (y < x)%Q.
Proof.
  unfold Qgtb. intros H. apply negb_true_iff in H.
  apply Qnot_le_lt. intros Hle. apply Qle_bool_iff in Hle. congruence.
Qed.

Lemma Qgtb_false (x y : Q) : Qgtb x y = false -> (x <= y)%Q.
Proof.
  unfold Qgtb. intros H. apply negb_false_iff in H. now apply Qle_bool_iff.
Qed.

Lemma best_step_ge (best r : Q) : (best <= (if Qgtb r best then r else best))%Q.
Proof.
  destruct (Qgtb r best) eqn:E.
  - apply Qlt_le_weak, Qgtb_true, E.
  - apply Qle_refl.
Qed.

Lemma fold_best_ge_start (rs : list Q) (b : Q) :
  (b <= fold_left (fun best r => if Qgtb r best then r else best) rs b)%Q.
Proof.
  revert b; induction rs as [|r rs IH]; intros b; simpl.
  - apply Qle_refl.
  - eapply Qle_trans; [apply (best_step_ge b r)|apply IH].
Qed.

Lemma best_of_upper_bound (rs : list Q) (r : Q) : In r rs -> (r <= best_of rs)%Q.
Proof.
  unfold best_of. generalize 0%Q as b.
  induction rs as [|x rs IH]; intros b Hin; simpl; [contradiction|].
  destruct Hin as [->|Hin]; [|now apply IH].
  eapply Qle_trans; [|apply fold_best_ge_start].
  destruct (Qgtb r b) eqn:E; [apply Qle_refl|apply Qgtb_false, E].
Qed.

Lemma best_of_snoc (rs : list Q) (r : Q) :
  best_of (rs ++ [r]) = (if Qgtb r (best_of rs) then r else best_of rs).
Proof. unfold best_of. now rewrite fold_left_app. Qed.

(** With a non-negative patience the sampling branch is never taken on a
    new best, so the stored best recall is the best recall seen. *)
Lemma best_invariant (past : list (Event A)) (s : CycleState A) (epoch : Z) (ev : Event A)
  (s' : CycleState A) :
  (0 <= add_labeled_epochs args)%Z ->
  (0 <= last_best_epochs s)%Z /\ best_recall s = best_of (map ev_recall past) ->
  epoch_body args epoch (epoch, validate epoch) s = (ev, s') ->
  (0 <= last_best_epochs s')%Z /\ best_recall s' = best_of (map ev_recall (past ++ [ev])).
Proof.
  intros Hpat [Hc Hb] E.
  destruct (epoch_body_fields _ _ _ _ _ E) as (_ & _ & _ & Hr).
  destruct (epoch_body_event _ _ _ _ _ E) as (Hbest & Hcnt & Hsam & Hnext & Hrec).
  rewrite map_app. cbn [map]. rewrite best_of_snoc, Hr, <- Hb, <- Hbest, Hrec, Hnext.
  destruct (ev_sampled ev) eqn:Es.
  - split; [lia|].
    symmetry in Hsam. apply sampling_condition in Hsam as [_ Hgt].
    destruct (ev_is_best ev); [lia|reflexivity].
  - split; [|reflexivity]. rewrite Hcnt. destruct (ev_is_best ev); lia.
Qed.

(** C10. With a non-negative patience window, an epoch on which the
    sampling branch is taken is never a new best; hence after every epoch
    the stored [best_recall] is the best recall of all epochs run so far
    (no epoch run has a strictly better recall), and [best_recall] never
    decreases from one epoch to the next. *)
Theorem sampling_keeps_best (start_labeled : A) (pre : list (Event A)) (ev : Event A)
  (post : list (Event A)) :
  (0 <= add_labeled_epochs args)%Z ->
  fst (main args start_labeled validate) = pre ++ ev :: post ->
  (ev_sampled ev = true -> ev_is_best ev = false /\ (1 <= ev_counter ev)%Z) /\
  best_recall (ev_before ev) = best_of (map ev_recall pre) /\
  best_recall (ev_after ev) = best_of (map ev_recall (pre ++ [ev])) /\
  (forall e, In e (pre ++ [ev]) -> (ev_recall e <= best_recall (ev_after ev))%Q) /\
  (best_recall (ev_before ev) <= best_recall (ev_after ev))%Q.
Proof.
  intros Hpat Hmain.
  pose proof (epoch_loop_run (range (start_epoch args) (epochs args))
                (initial_state start_labeled)) as Hrun.
  fold (main args start_labeled validate) in Hrun. rewrite Hmain in Hrun.
  destruct (run_invariant
              (fun past s => (0 <= last_best_epochs s)%Z
                             /\ best_recall s = best_of (map ev_recall past))
              (fun past s epoch e s' => best_invariant past s epoch e s' Hpat)
              pre ev post (initial_state start_labeled) []
              (conj (Z.le_refl 0) (eq_refl 0%Q)) Hrun)
    as [[Hc Hb] E].
  simpl in Hb.
  destruct (best_invariant _ _ _ _ _ Hpat (conj Hc Hb) E) as [_ Ha].
  destruct (epoch_body_event _ _ _ _ _ E) as (Hbest & Hcnt & Hsam & _ & _).
  split.
  { intros Es. rewrite Es in Hsam. symmetry in Hsam.
    apply sampling_condition in Hsam as [_ Hgt].
    split; [|lia]. rewrite Hcnt in Hgt. destruct (ev_is_best ev); [lia|reflexivity]. }
  split; [exact Hb|]. split; [exact Ha|]. split.
  - intros e He. rewrite Ha. apply best_of_upper_bound, in_map, He.
  - rewrite Ha, Hb, map_app. cbn [map]. rewrite best_of_snoc. apply best_step_ge.
Qed.

End Controller.

Lemma sampling_trigger_witness :
  exists pre ev post,
    fst (main demo_args (1 # 4)%Q demo_validate) = pre ++ ev :: post /\
    ev_epoch ev = 3%Z /\ ev_sampled ev = true /\
    (ev_epoch ev > labeled_warmup_epochs demo_args
     /\ ev_counter ev > add_labeled_epochs demo_args)%Z /\
    last_best_epochs (ev_after ev) = 0%Z.
Proof.
  exists (firstn 3 demo_trace), (nth 3 demo_trace no_event), (skipn 4 demo_trace).
  assert (E : fst (main demo_args (1 # 4)%Q demo_validate)
              = firstn 3 demo_trace ++ nth 3 demo_trace no_event :: skipn 4 demo_trace)
    by (vm_compute; reflexivity).
  destruct (sampling_trigger demo_args demo_validate (1 # 4)%Q _ _ _ E)
    as (He & _ & _ & _ & _ & _ & Hiff & Hnext).
  assert (Es : ev_sampled (nth 3 demo_trace no_event) = true) by (vm_compute; reflexivity).
  split; [exact E|]. split; [exact He|]. split; [exact Es|].
  split; [apply Hiff, Es|]. rewrite Hnext, Es. reflexivity.
Defined.

Lemma sampling_keeps_best_witness :
  exists pre ev post,
    fst (main demo_args (1 # 4)%Q demo_validate) = pre ++ ev :: post /\
    ev_sampled ev = true /\ ev_is_best ev = false /\
    (best_recall (ev_before ev) <= best_recall (ev_after ev))%Q.
Proof.
  exists (firstn 3 demo_trace), (nth 3 demo_trace no_event), (skipn 4 demo_trace).
  assert (E : fst (main demo_args (1 # 4)%Q demo_validate)
              = firstn 3 demo_trace ++ nth 3 demo_trace no_event :: skipn 4 demo_trace)
    by (vm_compute; reflexivity).
  assert (Hpat : (0 <= add_labeled_epochs demo_args)%Z) by (simpl; lia).
  destruct (sampling_keeps_best demo_args demo_validate (1 # 4)%Q _ _ _ Hpat E)
    as (Hnb & _ & _ & _ & Hmono).
  assert (Es : ev_sampled (nth 3 demo_trace no_event) = true) by (vm_compute; reflexivity).
  split; [exact E|]. split; [exact Es|]. split; [apply Hnb, Es|exact Hmono].
Defined.

(* ----------------------------------------------------------------- *)
(** ** Construction of the sampler *)

Lemma class_attribute_cases (name : string) :
  (name = "__init__" \/ name = "get_samples")%string /\ scoring_function_named name = None
  /\ class_attribute name = Some (BoundMethod name)
  \/ (exists f, scoring_function_named name = Some f
                /\ class_attribute name = Some (StaticMethod f)
                /\ name <> "uncertainty_sampling_method"%string)
  \/ class_attribute name = None /\ scoring_function_named name = None
     /\ name <> "__init__"%string /\ name <> "get_samples"%string.
Proof.
  unfold scoring_function_named, class_attribute.
  repeat match goal with
         | |- context [String.eqb name ?s] =>
             destruct (String.eqb_spec name s) as [->|?]
         end;
    try (left; repeat split; auto; fail);
    try (right; left; eexists; repeat split; [discriminate]; fail);
    right; right; auto.
Qed.

(** C8 as stated fails: [get_samples] names no scoring function, yet the
    constructor accepts it. *)
Lemma init_accepts_get_samples :
  scoring_function_named "get_samples" = None /\
  init python_object "get_samples" false
  = Some (mkUncertaintySampling "get_samples" (BoundMethod "get_samples") false).
Proof. split; reflexivity. Qed.

(** C8, amended.  Construction fails (the [AttributeError] of [getattr],
    raised in [__init__]) exactly for the names that are not an attribute of
    the instance; it succeeds for each of the five scoring-function names,
    binding [method] to that function, and it also succeeds for the other
    attribute names: [__init__], [get_samples], the field
    [uncertainty_sampling_method] set just before, and the attributes
    inherited from [object]. *)
Theorem init_succeeds_iff (inherited : string -> bool) (name : string) (verbose : bool) :
  (init inherited name verbose <> None <->
   scoring_function_named name <> None
   \/ name = "__init__"%string \/ name = "get_samples"%string
   \/ name = "uncertainty_sampling_method"%string
   \/ inherited name = true) /\
  (forall f, scoring_function_named name = Some f ->
             init inherited name verbose
             = Some (mkUncertaintySampling name (StaticMethod f) verbose)) /\
  (forall f, In f [LeastConfidence; MarginConfidence; RatioConfidence; EntropyBased;
                   DensityWeighted] ->
             exists n, scoring_function_named n = Some f).
Proof.
  split; [|split].
  - unfold init, getattr. cbn [find fst snd].
    destruct (String.eqb_spec "uncertainty_sampling_method" name) as [<-|Hne].
    { split; [auto 6|discriminate]. }
    destruct (class_attribute_cases name)
      as [(Hn & Hs & ->)|[(f & Hs & -> & _)|(-> & Hs & Hn1 & Hn2)]].
    + split; [intros _; destruct Hn; auto|discriminate].
    + split; [intros _; left; congruence|discriminate].
    + destruct (inherited name).
      * split; [auto 6|discriminate].
      * split; [congruence|].
        intros [H|[H|[H|[H|H]]]]; congruence.
  - intros f Hf. unfold init, getattr. cbn [find fst snd].
    destruct (class_attribute_cases name)
      as [(_ & Hs & _)|[(f' & Hs & Hc & Hne)|(_ & Hs & _)]]; try congruence.
    destruct (String.eqb_spec "uncertainty_sampling_method" name) as [E|_];
      [now symmetry in E|].
    rewrite Hc. congruence.
  - intros f Hf. simpl in Hf.
    destruct Hf as [<-|[<-|[<-|[<-|[<-|[]]]]]].
    + now exists "least_confidence"%string.
    + now exists "margin_confidence"%string.
    + now exists "ratio_confidence"%string.
    + now exists "entropy_based"%string.
    + now exists "density_weighted"%string.
Qed.

Lemma init_succeeds_iff_witness :
  init python_object "entropy_based" false
  = Some (mkUncertaintySampling "entropy_based" (StaticMethod EntropyBased) false).
Proof.
  apply (proj1 (proj2 (init_succeeds_iff python_object "entropy_based" false))).
  reflexivity.
Defined.

(* ----------------------------------------------------------------- *)
(** ** Random subsampling *)

Lemma remove_at_spec {A : Type} (d : A) (i : nat) (l : list A) :
  i < length l -> NoDup l ->
  NoDup (remove_at i l) /\ ~ In (nth i l d) (remove_at i l)
  /\ incl (remove_at i l) l /\ S (length (remove_at i l)) = length l.
Proof.
  revert i; induction l as [|h t IH]; intros i Hi Hnd; simpl in Hi; [lia|].
  inversion Hnd as [|? ? Hnin Hnd']; subst.
  destruct i as [|j]; simpl.
  - split; [exact Hnd'|]. split; [exact Hnin|]. split; [|reflexivity].
    intros x Hx. now right.
  - destruct (IH j ltac:(lia) Hnd') as (H1 & H2 & H3 & H4).
    split; [|split; [|split]].
    + constructor; [|exact H1]. intros Hin. apply Hnin, H3, Hin.
    + intros [E|Hin]; [|now apply H2]. apply Hnin. rewrite E. apply nth_In. lia.
    + intros x [->|Hx]; [now left|right; now apply H3].
    + now rewrite H4.
Qed.

Lemma draw_without_replacement_spec (size : nat) :
  forall rng pool, NoDup pool -> size <= length pool ->
    length (draw_without_replacement rng pool size) = size
    /\ NoDup (draw_without_replacement rng pool size)
    /\ incl (draw_without_replacement rng pool size) pool.
Proof.
  induction size as [|k IH]; intros rng pool Hnd Hle; simpl.
  - split; [reflexivity|]. split; [constructor|intros x []].
  - assert (Hi : Nat.modulo (hd 0 rng) (length pool) < length pool)
      by (apply Nat.mod_upper_bound; lia).
    destruct (remove_at_spec 0 _ _ Hi Hnd) as (H1 & H2 & H3 & H4).
    destruct (IH (tl rng) (remove_at (Nat.modulo (hd 0 rng) (length pool)) pool) H1
                ltac:(lia)) as (L & N & I).
    split; [|split].
    + now rewrite L.
    + constructor; [|exact N]. intros Hin. apply H2, I, Hin.
    + intros x [<-|Hx]; [now apply nth_In|apply H3, I, Hx].
Qed.

(** The part of C5 that holds: whatever the entropy, [k <= len(unlabeled)]
    gives exactly [k] pairwise-distinct positions, and all positions when
    [k = len(unlabeled)]. *)
Lemma stratified_random_sampling_distinct (env : RunEnv) (unlabeled : list Z) (k : nat) :
  k <= length unlabeled ->
  exists samples,
    stratified_random_sampling env unlabeled k = Some samples
    /\ length samples = k /\ NoDup samples
    /\ Forall (fun p => p < length unlabeled) samples
    /\ (k = length unlabeled -> Permutation samples (seq 0 (length unlabeled))).
Proof.
  intros Hk. unfold stratified_random_sampling, choice.
  destruct (Nat.leb_spec k (length unlabeled)) as [_|Hlt]; [|lia].
  destruct (draw_without_replacement_spec k (default_rng env) (seq 0 (length unlabeled))
              (seq_NoDup _ _) ltac:(now rewrite length_seq)) as (L & N & I).
  eexists. split; [reflexivity|]. split; [exact L|]. split; [exact N|]. split.
  - apply Forall_forall. intros p Hp. apply I, in_seq in Hp. lia.
  - intros ->. apply NoDup_Permutation_bis; auto. rewrite L, length_seq. lia.
Qed.

(** C5, reproducibility: the generator is created by [default_rng()]
    without a seed, so two runs configured with the same seed, on the same
    unlabeled sequence and the same [k], can return different positions. *)
Theorem stratified_random_sampling_ignores_seed :
  seed (mkRunEnv 0 [0]) = seed (mkRunEnv 0 [1]) /\
  stratified_random_sampling (mkRunEnv 0 [0]) [3; 4]%Z 1 = Some [0] /\
  stratified_random_sampling (mkRunEnv 0 [1]) [3; 4]%Z 1 = Some [1].
Proof. repeat split. Qed.

(* ----------------------------------------------------------------- *)
(** ** The scoring functions *)


(** [Forall] and [Forall2] over concrete reals. *)
Ltac forall_lra :=
  repeat first [apply Forall_nil | apply Forall2_nil
               | apply Forall_cons; [simpl; lra|]
               | apply Forall2_cons; [simpl; lra|]].

Lemma Rinsert_perm (x : R) (l : list R) : Permutation (Rinsert x l) (x :: l).
Proof.
  induction l as [|y t IH]; simpl; auto.
  destruct (Rle_dec x y); auto.
  rewrite IH. apply perm_swap.
Qed.

Lemma Rsort_perm (l : list R) : Permutation (Rsort l) l.
Proof.
  induction l as [|x t IH]; simpl; auto.
  rewrite Rinsert_perm. now constructor.
Qed.

Lemma Rinsert_sorted (x : R) (l : list R) :
  StronglySorted Rle l -> StronglySorted Rle (Rinsert x l).
Proof.
  induction 1 as [|y t Hs IH Hall]; simpl.
  - repeat constructor.
  - destruct (Rle_dec x y) as [Hle|Hgt].
    + constructor; [now constructor|]. constructor; auto.
      eapply Forall_impl; [|exact Hall]. simpl. intros; lra.
    + constructor; auto.
      apply (Permutation_Forall (Permutation_sym (Rinsert_perm x t))).
      constructor; auto. lra.
Qed.

Lemma Rsort_sorted (l : list R) : StronglySorted Rle (Rsort l).
Proof.
  induction l as [|x t IH]; simpl; [constructor|now apply Rinsert_sorted].
Qed.

Lemma sorted_snoc_max (l : list R) (a : R) :
  StronglySorted Rle (l ++ [a]) -> Forall (fun y => (y <= a)%R) (l ++ [a]).
Proof.
  induction l as [|x t IH]; simpl; intros Hs.
  - forall_lra.
  - inversion Hs as [|? ? Hs' Hall]; subst. constructor; [|now apply IH].
    rewrite Forall_forall in Hall. apply Hall, in_or_app. right. now left.
Qed.

Lemma fold_left_Rmax_spec (l : list R) (x : R) :
  In (fold_left Rmax l x) (x :: l)
  /\ Forall (fun y => (y <= fold_left Rmax l x)%R) (x :: l).
Proof.
  revert x; induction l as [|y t IH]; intros x; simpl.
  - split; [now left|forall_lra].
  - destruct (IH (Rmax x y)) as [Hin Hall]. split.
    + destruct Hin as [E|Hin]; [|now right; right].
      rewrite <- E. unfold Rmax. destruct (Rle_dec x y); simpl; auto.
    + inversion Hall as [|? ? Hm Ht]; subst.
      pose proof (Rmax_l x y). pose proof (Rmax_r x y).
      apply Forall_cons; [lra|]. apply Forall_cons; [lra|exact Ht].
Qed.

(** The last two entries of the sorted row are the largest and the
    second-largest entry; the largest is what [torch.max] returns. *)
Lemma last_two_sorted (row : list R) (a b : R) :
  last_two (Rsort row) = Some (a, b) ->
  row_max row = Some a /\ (b <= a)%R.
Proof.
  unfold last_two. intros H.
  destruct (rev (Rsort row)) as [|a' [|b' rest]] eqn:E; try discriminate.
  injection H as -> ->.
  assert (Hs : Rsort row = (rev rest ++ [b]) ++ [a]).
  { rewrite <- (rev_involutive (Rsort row)), E. simpl. reflexivity. }
  pose proof (Rsort_sorted row) as Hsorted. rewrite Hs in Hsorted.
  pose proof (sorted_snoc_max _ _ Hsorted) as Hmax. rewrite <- Hs in Hmax.
  assert (Hb : (b <= a)%R).
  { rewrite Forall_forall in Hmax. apply Hmax. rewrite Hs.
    apply in_or_app. left. apply in_or_app. right. now left. }
  split; [|exact Hb].
  destruct row as [|x t].
  { simpl in Hs. destruct (rev rest); discriminate. }
  simpl. f_equal.
  destruct (fold_left_Rmax_spec t x) as [Hin Hall].
  apply Rle_antisym.
  - rewrite Forall_forall in Hmax. apply Hmax.
    apply (Permutation_in _ (Permutation_sym (Rsort_perm (x :: t)))), Hin.
  - rewrite Forall_forall in Hall. apply Hall.
    apply (Permutation_in _ (Rsort_perm (x :: t))). rewrite Hs.
    apply in_or_app. right. now left.
Qed.




(** For two classes the premise is just a larger top probability. *)
Lemma two_class_scores_agree (a b c d : R) :
  (0 < a)%R -> (0 < b)%R -> (a + b = 1)%R -> (c + d = 1)%R ->
  (Rmax c d < Rmax a b)%R ->
  last_two (Rsort [a; b]) = Some (Rmax a b, Rmin a b)
  /\ last_two (Rsort [c; d]) = Some (Rmax c d, Rmin c d)
  /\ (Rmin a b <= Rmin c d)%R /\ (0 < Rmin a b)%R.
Proof.
  intros Ha Hb Hab Hcd Hmax. unfold Rmax, Rmin in *. simpl.
  destruct (Rle_dec a b), (Rle_dec c d); repeat split; simpl; lra.
Qed.

Lemma map_rows_length {A B : Type} (f : A -> option B) (l : list A) (r : list B) :
  map_rows f l = Some r -> length r = length l.
Proof.
  revert r; induction l as [|x t IH]; intros r; simpl.
  - now intros [= <-].
  - destruct (f x); [|discriminate]. destruct (map_rows f t); [|discriminate].
    intros [= <-]. simpl. now rewrite (IH l).
Qed.

Lemma Rsum_zero (row : list R) : Forall (fun s => s = 0%R) row -> Rsum row = 0%R.
Proof.
  induction 1 as [|x t Hx _ IH]; [reflexivity|].
  unfold Rsum in *. cbn [fold_right]. rewrite Hx, IH. lra.
Qed.

Lemma unit_weights (scores : Tensor1) (similarities : Tensor2) :
  length scores = length similarities ->
  Forall (Forall (fun s => s = 0%R)) similarities ->
  map (fun ab => (fst ab * snd ab)%R)
    (combine scores (map (fun row => (- row_mean row + 1)%R) similarities))
  = scores.
Proof.
  intros Hlen Hzero.
  revert scores Hlen; induction Hzero as [|row rest Hrow _ IH]; intros [|s scores] Hlen;
    simpl in *; try discriminate; auto.
  rewrite IH by lia. f_equal.
  unfold row_mean. rewrite (Rsum_zero _ Hrow). unfold Rdiv. ring.
Qed.

Lemma mul_by_unit_weights (scores : Tensor1) (similarities : Tensor2) :
  length scores = length similarities ->
  Forall (Forall (fun s => s = 0%R)) similarities ->
  mul_elementwise scores (map (fun row => (- row_mean row + 1)%R) similarities)
  = Some scores.
Proof.
  intros Hlen Hzero. unfold mul_elementwise.
  rewrite length_map, Hlen, Nat.eqb_refl.
  now rewrite unit_weights.
Qed.

(** C7. When the cosine similarity of every example's feature to every
    reference feature is zero, the density-weighted score of every example
    is its least-confidence score.  (The tensors are well-shaped: one
    feature row per probability row, a non-empty reference bank, no feature
    of norm zero.) *)
Theorem density_weighted_zero_similarity (probs feat feat_train similarities : Tensor2) :
  length probs = length feat ->
  feat_train <> [] ->
  Forall (fun row => row_norm row <> 0%R) (feat ++ feat_train) ->
  mm_transpose (normalize_rows feat) (normalize_rows feat_train) = Some similarities ->
  Forall (Forall (fun s => s = 0%R)) similarities ->
  density_weighted probs feat (Some feat_train)
  = least_confidence probs feat (Some feat_train).
Proof.
  intros Hlen _ _ Hmm Hzero. unfold density_weighted, least_confidence.
  destruct (map_rows row_max probs) as [simple_least_conf|] eqn:E; [|reflexivity].
  rewrite Hmm. apply mul_by_unit_weights; [|exact Hzero].
  rewrite (map_rows_length _ _ _ E), Hlen.
  unfold mm_transpose in Hmm.
  destruct (forallb _ _); [|discriminate]. injection Hmm as <-.
  unfold normalize_rows. now rewrite !length_map.
Qed.

Lemma density_weighted_zero_similarity_witness :
  density_weighted [[1 / 5; 4 / 5]]%R [[1; 0]]%R (Some [[0; 1]]%R)
  = least_confidence [[1 / 5; 4 / 5]]%R [[1; 0]]%R (Some [[0; 1]]%R).
Proof.
  assert (Hn : forall a b : R, (a * a + (b * b + 0) = 1)%R ->
                               row_norm [a; b] <> 0%R).
  { intros a b E. unfold row_norm, Rsum. simpl. rewrite E, sqrt_1. lra. }
  apply (density_weighted_zero_similarity _ _ _
           [[dot [1 / row_norm [1; 0]; 0 / row_norm [1; 0]]
                 [0 / row_norm [0; 1]; 1 / row_norm [0; 1]]]]%R).
  - reflexivity.
  - discriminate.
  - repeat (apply Forall_cons; [apply Hn; lra|]). apply Forall_nil.
  - reflexivity.
  - repeat constructor. unfold dot, Rsum, Rdiv. simpl. ring.
Defined.

(* ----------------------------------------------------------------- *)
(** ** Sorting positions *)




Section SortPositions.

Variable descending : bool.
Variable samples : Tensor1.





End SortPositions.






(* ----------------------------------------------------------------- *)
(** ** [get_samples] *)

Section GetSamplesFacts.

Variable X : Type.
Variable model : list X -> Tensor2 * Tensor2.
Variable argsort : bool -> Tensor1 -> list nat.

(** The pass over the training loader calls the model once per batch, in
    order, and never raises. *)
Lemma train_pass (train_loader : Loader X) (acc : option Tensor2) (log : list (list X)) :
  for_each train_loader
    (fun b feat_train =>
       bind (call_model model (fst b)) (fun out =>
       ret (Some (cat_onto feat_train (snd out))))) acc log
  = Some (fold_left (fun feat_train b => Some (cat_onto feat_train (snd (model (fst b)))))
            train_loader acc,
          log ++ map fst train_loader).
Proof.
  revert acc log; induction train_loader as [|b rest IH]; intros acc log; simpl.
  - unfold ret. now rewrite app_nil_r.
  - unfold bind at 1. unfold bind at 1. unfold call_model at 1. unfold ret at 1.
    rewrite IH, <- app_assoc. reflexivity.
Qed.



(** An empty unlabeled loader leaves [samples] at [None], and
    [None.argsort] raises. *)
Lemma get_samples_empty (self : UncertaintySampling) (train_loader : Loader X)
  (number : nat) (log : list (list X)) :
  get_samples model argsort self train_loader [] number log = None.
Proof.
  unfold get_samples. unfold bind at 1. rewrite train_pass. reflexivity.
Qed.

End GetSamplesFacts.















(* ----------------------------------------------------------------- *)
(** ** The entropy over float32 values *)

Section Float32Facts.

Import Float32.

Variable rnd : R -> float32.
Hypothesis rnd_rounding : rounding rnd.

Lemma representable_integer (n : Z) : (Z.abs n < 2 ^ 24)%Z -> representable (IZR n).
Proof.
  intros Hn. exists n, 0, 0. repeat split; try lia. simpl. field.
Qed.

Lemma representable_inverse_power (k : nat) : k <= 149 -> representable (/ 2 ^ k).
Proof.
  intros Hk. exists 1%Z, 0, k. repeat split; try lia.
  simpl. field. apply pow_nonzero. lra.
Qed.

(** A number between two float32 values rounds to a number between them. *)
Lemma rnd_between (a b x : R) :
  representable a -> representable b -> (a <= x <= b)%R ->
  exists y, rnd x = Finite y /\ (a <= y <= b)%R.
Proof.
  intros Ha Hb [Hax Hxb].
  pose proof (rnd_monotone rnd rnd_rounding a x Hax) as H1.
  pose proof (rnd_monotone rnd rnd_rounding x b Hxb) as H2.
  rewrite (rnd_exact rnd rnd_rounding a Ha) in H1.
  rewrite (rnd_exact rnd rnd_rounding b Hb) in H2.
  destruct (rnd x) as [y|[|]|]; simpl in H1, H2; try contradiction.
  exists y. auto.
Qed.

Lemma rnd_integer (n : Z) : (Z.abs n < 2 ^ 24)%Z -> rnd (IZR n) = Finite (IZR n).
Proof. intros Hn. apply (rnd_exact rnd rnd_rounding), representable_integer, Hn. Qed.

Lemma exp_minus_le_inverse_power (n : nat) : (exp (- INR n) <= / 2 ^ n)%R.
Proof.
  assert (H1 : (exp (Ropp 1) <= / 2)%R).
  { rewrite exp_Ropp. apply Rinv_le_contravar; [lra|].
    pose proof (exp_ineq1 1 ltac:(lra)). lra. }
  induction n as [|n IH].
  - simpl. rewrite Ropp_0, exp_0. lra.
  - rewrite S_INR. replace (- (INR n + 1))%R with (- INR n + Ropp 1)%R by ring.
    rewrite exp_plus. cbn [pow]. rewrite Rinv_mult.
    rewrite (Rmult_comm (/ 2)).
    apply Rmult_le_compat; try (left; apply exp_pos); assumption.
Qed.

Lemma inverse_power_le (m n : nat) : m <= n -> (/ 2 ^ n <= / 2 ^ m)%R.
Proof.
  intros Hmn. apply Rinv_le_contravar; [apply pow_lt; lra|].
  apply Rle_pow; [lra|exact Hmn].
Qed.

Lemma is_zero_true (x : R) : x = 0%R -> is_zero x = true.
Proof. intros ->. unfold is_zero. destruct (Req_dec_T 0 0); [reflexivity|contradiction]. Qed.

Lemma is_zero_false (x : R) : x <> 0%R -> is_zero x = false.
Proof. intros H. unfold is_zero. destruct (Req_dec_T x 0); [contradiction|reflexivity]. Qed.

Lemma is_negative_false (x : R) : (0 <= x)%R -> is_negative x = false.
Proof. intros H. unfold is_negative. destruct (Rlt_dec x 0); [lra|reflexivity]. Qed.

Lemma entropy_row_terms (row : list float32) :
  map (fun ab => fmul rnd (fneg (fst ab)) (snd ab)) (combine row (map (flog rnd) row))
  = map (entropy_term rnd) row.
Proof. induction row as [|p t IH]; simpl; [reflexivity|]. now rewrite IH. Qed.

Lemma entropy_based_rows (probs feat : Tensor2) (feat_train : option Tensor2) :
  entropy_based rnd probs feat feat_train
  = Some (map (fun row => fsum rnd (map (entropy_term rnd) row)) probs).
Proof.
  unfold entropy_based. f_equal.
  induction probs as [|row t IH]; simpl; [reflexivity|].
  now rewrite IH, entropy_row_terms.
Qed.

(** [-0 * log 0] is [-0 * -inf], which is NaN. *)
Lemma entropy_term_zero : entropy_term rnd (Finite 0) = NaN.
Proof.
  unfold entropy_term, flog, fneg, fmul.
  rewrite (is_zero_true 0) by reflexivity.
  rewrite (is_zero_true (- 0)) by lra. reflexivity.
Qed.

Lemma ln_of_float32 (p : R) : (/ 2 ^ 149 <= p <= 1)%R -> (-256 <= ln p <= 0)%R.
Proof.
  intros [Hlo Hhi].
  assert (Hpos : (0 < p)%R).
  { apply Rlt_le_trans with (/ 2 ^ 149)%R; [|exact Hlo].
    apply Rinv_0_lt_compat, pow_lt. lra. }
  split.
  - assert (He : (exp (-256) <= p)%R).
    { apply Rle_trans with (/ 2 ^ 256)%R.
      - replace (-256)%R with (- INR 256)%R by (rewrite INR_IZR_INZ; reflexivity).
        apply exp_minus_le_inverse_power.
      - apply Rle_trans with (/ 2 ^ 149)%R; [apply inverse_power_le; lia|exact Hlo]. }
    rewrite <- (ln_exp (-256)).
    destruct He as [He|He]; [left; apply ln_increasing; [apply exp_pos|exact He]|].
    right. now rewrite He.
  - rewrite <- ln_1. destruct Hhi as [Hhi|Hhi]; [left; now apply ln_increasing|].
    right. now rewrite Hhi.
Qed.

Lemma entropy_term_positive (p : R) :
  (/ 2 ^ 149 <= p <= 1)%R ->
  exists t, entropy_term rnd (Finite p) = Finite t /\ (0 <= t <= 256)%R.
Proof.
  intros Hp. pose proof (ln_of_float32 p Hp) as Hln.
  assert (Hpos : (0 < p)%R).
  { apply Rlt_le_trans with (/ 2 ^ 149)%R; [|apply Hp].
    apply Rinv_0_lt_compat, pow_lt. lra. }
  unfold entropy_term, flog, fneg.
  rewrite is_zero_false, is_negative_false by lra.
  destruct (rnd_between (-256) 0 (ln p)) as (l & El & Hl);
    [apply (representable_integer (-256)); lia
    |apply (representable_integer 0); lia|exact Hln|].
  rewrite El. unfold fmul.
  apply (rnd_between 0 256);
    [apply (representable_integer 0); lia|apply (representable_integer 256); lia|].
  destruct Hp as [_ Hp1]. split; nra.
Qed.

Lemma fadd_nan_l (a : float32) : fadd rnd NaN a = NaN.
Proof. reflexivity. Qed.

Lemma fadd_nan_r (a : float32) : fadd rnd a NaN = NaN.
Proof. destruct a as [x|s|]; reflexivity. Qed.

Lemma fold_fadd_nan (l : list float32) : fold_left (fadd rnd) l NaN = NaN.
Proof. induction l as [|a t IH]; simpl; [reflexivity|exact IH]. Qed.

(** A sum with a NaN term is NaN. *)
Lemma fsum_nan (l : list float32) (acc : float32) :
  In NaN l -> fold_left (fadd rnd) l acc = NaN.
Proof.
  revert acc; induction l as [|a t IH]; intros acc Hin; [contradiction|].
  simpl. destruct Hin as [->|Hin]; [rewrite fadd_nan_r; apply fold_fadd_nan|now apply IH].
Qed.

(** A sum of fewer than [2^16] terms between 0 and 256 is finite and not
    negative. *)
Lemma fsum_bounded (l : list float32) :
  forall (k : nat) (a : R),
    (Z.of_nat (k + length l) < 2 ^ 16)%Z ->
    (0 <= a <= 256 * INR k)%R ->
    Forall (fun t => exists x, t = Finite x /\ (0 <= x <= 256)%R) l ->
    exists h, fold_left (fadd rnd) l (Finite a) = Finite h
              /\ (0 <= h <= 256 * INR (k + length l))%R.
Proof.
  induction l as [|t rest IH]; intros k a Hk Ha Hall.
  - exists a. simpl. rewrite Nat.add_0_r. auto.
  - inversion Hall as [|? ? (x & -> & Hx) Hrest]; subst. simpl in Hk |- *.
    destruct (rnd_between 0 (IZR (256 * Z.of_nat (S k))) (a + x)) as (y & Ey & Hy).
    + apply (representable_integer 0). lia.
    + apply representable_integer. lia.
    + rewrite mult_IZR, <- INR_IZR_INZ, S_INR. lra.
    + rewrite Ey. destruct (IH (S k) y) as (h & Eh & Hh).
      * lia.
      * rewrite mult_IZR, <- INR_IZR_INZ in Hy. exact Hy.
      * exact Hrest.
      * exists h. split; [exact Eh|]. now replace (k + S (length rest)) with (S k + length rest) by lia.
Qed.

(** The score of one row. *)
Lemma entropy_row_score (row : list float32) :
  (Z.of_nat (length row) < 2 ^ 16)%Z -> Forall probability row ->
  (In (Finite 0) row -> fsum rnd (map (entropy_term rnd) row) = NaN)
  /\ (~ In (Finite 0) row ->
      exists h, fsum rnd (map (entropy_term rnd) row) = Finite h /\ (0 <= h)%R).
Proof.
  intros Hlen Hrow. split.
  - intros Hin. unfold fsum. apply fsum_nan.
    rewrite <- entropy_term_zero. now apply in_map.
  - intros Hno. unfold fsum.
    destruct (fsum_bounded (map (entropy_term rnd) row) 0 0) as (h & Eh & Hh).
    + rewrite length_map. simpl. exact Hlen.
    + simpl. lra.
    + clear Hlen. induction Hrow as [|p t (x & -> & Hx) _ IHt]; cbn [map]; constructor.
      * destruct Hx as [->|Hx]; [exfalso; apply Hno; now left|].
        apply entropy_term_positive, Hx.
      * apply IHt. intros H. apply Hno. now right.
    + exists h. split; [exact Eh|apply Hh].
Qed.

(** X13. Over float32 values, for rows of fewer than [2^16] float32
    probabilities: the [entropy_based] score of a row is NaN exactly when
    one of its probabilities is 0 (the term [-0 * log 0] is NaN and the sum
    keeps it); the score of a row without a zero is finite and not
    negative. *)
Theorem entropy_based_nan_iff_zero (probs feat : Tensor2) (feat_train : option Tensor2) :
  Forall (fun row => (Z.of_nat (length row) < 2 ^ 16)%Z /\ Forall probability row) probs ->
  exists scores,
    entropy_based rnd probs feat feat_train = Some scores
    /\ Forall2 (fun row score =>
                  (In (Finite 0) row -> score = NaN)
                  /\ (~ In (Finite 0) row -> exists h, score = Finite h /\ (0 <= h)%R))
         probs scores.
Proof.
  intros Hall. rewrite entropy_based_rows. eexists. split; [reflexivity|].
  induction Hall as [|row rest [Hlen Hrow] _ IH]; cbn [map]; constructor; [|exact IH].
  now apply entropy_row_score.
Qed.

Lemma fadd_integer (x y : R) (n : Z) :
  (x + y)%R = IZR n -> (Z.abs n < 2 ^ 24)%Z -> fadd rnd (Finite x) (Finite y) = Finite (IZR n).
Proof. intros E Hn. unfold fadd. rewrite E. now apply rnd_integer. Qed.

Lemma fmax_finite (x y : R) :
  fmax (Finite x) (Finite y) = Finite (Rmax x y).
Proof.
  unfold fmax, float_leb, Rmax. destruct (Rle_dec x y); reflexivity.
Qed.

(** Three equal logits: three equal probabilities, each between 1/4 and
    1/2 (the rounded third). *)
Lemma softmax_row_uniform :
  exists q, softmax_row rnd [Finite 0; Finite 0; Finite 0] = [Finite q; Finite q; Finite q]
            /\ (/ 4 <= q <= / 2)%R.
Proof.
  unfold softmax_row. cbn [fold_left map]. rewrite !fmax_finite.
  replace (Rmax (Rmax 0 0) 0) with 0%R by (unfold Rmax; repeat destruct (Rle_dec _ _); lra).
  unfold fsub, fneg. rewrite (fadd_integer 0 (- 0) 0) by (lra || lia).
  unfold fexp. rewrite exp_0, (rnd_integer 1) by lia.
  unfold fsum. cbn [fold_left].
  rewrite (fadd_integer 0 1 1), (fadd_integer 1 1 2), (fadd_integer 2 1 3) by (lra || lia).
  unfold fdiv. rewrite is_zero_false by lra.
  destruct (rnd_between (/ 2 ^ 2) (/ 2 ^ 1) (1 / 3)) as (q & Eq & Hq).
  - apply representable_inverse_power. lia.
  - apply representable_inverse_power. lia.
  - simpl. lra.
  - exists q. rewrite Eq. split; [reflexivity|]. simpl in Hq. lra.
Qed.

(** A logit 200 above the others: the exponentials of the others underflow
    to zero, and the row is exactly one-hot. *)
Lemma softmax_row_saturated :
  softmax_row rnd [Finite 0; Finite 200; Finite 0] = [Finite 0; Finite 1; Finite 0].
Proof.
  unfold softmax_row. cbn [fold_left map]. rewrite !fmax_finite.
  replace (Rmax (Rmax 0 200) 0) with 200%R by (unfold Rmax; repeat destruct (Rle_dec _ _); lra).
  unfold fsub, fneg.
  rewrite (fadd_integer 0 (Ropp 200) (-200)), (fadd_integer 200 (Ropp 200) 0) by (lra || lia).
  unfold fexp. rewrite exp_0, (rnd_integer 1) by lia.
  assert (Hu : rnd (exp (-200)) = Finite 0).
  { apply (rnd_underflow rnd rnd_rounding).
    rewrite Rabs_pos_eq by (left; apply exp_pos).
    apply Rle_trans with (/ 2 ^ 200)%R; [|apply inverse_power_le; lia].
    replace (-200)%R with (- INR 200)%R by (rewrite INR_IZR_INZ; reflexivity).
    apply exp_minus_le_inverse_power. }
  rewrite Hu. unfold fsum. cbn [fold_left].
  rewrite (fadd_integer 0 0 0), (fadd_integer 0 1 1), (fadd_integer 1 0 1) by (lra || lia).
  unfold fdiv. rewrite is_zero_false by lra.
  replace (0 / 1)%R with (IZR 0) by lra. replace (1 / 1)%R with (IZR 1) by lra.
  rewrite (rnd_integer 0), (rnd_integer 1) by lia. reflexivity.
Qed.

(** A descending argsort puts the NaN first. *)
Lemma argsort_nan_first (argsort : bool -> Tensor1 -> list nat) (h : R) :
  argsort_contract argsort -> argsort true [Finite h; NaN] = [1; 0].
Proof.
  intros Hc. destruct (Hc true [Finite h; NaN]) as [Hp Hs]. cbn [length seq] in Hp.
  pose proof (Permutation_length Hp) as Hlen.
  pose proof (Permutation_NoDup (Permutation_sym Hp) (seq_NoDup 2 0)) as Hnd.
  destruct (argsort true [Finite h; NaN]) as [|a [|b [|? ?]]]; try discriminate.
  assert (Ha : In a [0; 1]) by (apply (Permutation_in _ Hp); now left).
  assert (Hb : In b [0; 1]) by (apply (Permutation_in _ Hp); right; now left).
  inversion Hnd as [|? ? Hnin _]; subst.
  inversion Hs as [|? ? _ Hall]; subst. inversion Hall as [|? ? Hab _]; subst.
  simpl in Ha, Hb.
  destruct Ha as [<-|[<-|[]]], Hb as [<-|[<-|[]]];
    try reflexivity; exfalso; first [exact Hab|apply Hnin; now left].
Qed.

Lemma init_entropy_based (inherited : string -> bool) (verbose : bool)
  (self : UncertaintySampling) :
  init inherited "entropy_based" verbose = Some self ->
  self = mkUncertaintySampling "entropy_based" (StaticMethod EntropyBased) verbose.
Proof. unfold init, getattr. cbn. now intros [= <-]. Qed.

(** C3: the entropy sampler on a saturated softmax.  For every rounding to
    float32 and every [argsort] that meets the contract: of two unlabeled
    examples, the first with the logits [0, 0, 0] and the second with the
    logits [0, 200, 0], the softmax of the first is uniform and that of the
    second is exactly one-hot, [0, 1, 0]; [entropy_based] gives the first a
    finite score and the second NaN; and [get_samples] with [number = 1]
    returns position 1: the example the model is most confident about, whose
    entropy -Σ p·log p is the lowest there is, and not the uniform one, whose
    entropy is the highest. *)
Theorem entropy_selects_saturated (argsort : bool -> Tensor1 -> list nat)
  (other_scores : ScoringFunction -> Tensor2 -> Tensor2 -> option Tensor2 -> option Tensor1)
  (inherited : string -> bool) (verbose : bool) (self : UncertaintySampling) :
  argsort_contract argsort ->
  init inherited "entropy_based" verbose = Some self ->
  exists q h,
    (/ 4 <= q <= / 2)%R /\ (0 <= h)%R
    /\ softmax rnd (fst (saturating_model [0; 1]))
       = [[Finite q; Finite q; Finite q]; [Finite 0; Finite 1; Finite 0]]
    /\ entropy_based rnd (softmax rnd (fst (saturating_model [0; 1])))
         (snd (saturating_model [0; 1])) (Some (snd (saturating_model [7])))
       = Some [Finite h; NaN]
    /\ get_samples rnd saturating_model argsort other_scores self
         demo_train_loader demo_unlabeled_loader 1 []
       = Some ([1], [[7]; [0; 1]]).
Proof.
  intros Hc Hinit. apply init_entropy_based in Hinit. subst self.
  destruct softmax_row_uniform as (q & Eq & Hq).
  assert (Esoft : softmax rnd (fst (saturating_model [0; 1]))
                  = [[Finite q; Finite q; Finite q]; [Finite 0; Finite 1; Finite 0]]).
  { cbn [saturating_model fst map Nat.eqb softmax]. now rewrite Eq, softmax_row_saturated. }
  assert (Hprob : forall x, (/ 4 <= x <= / 2)%R -> (/ 2 ^ 149 <= x <= 1)%R).
  { intros x Hx. split; [|lra].
    apply Rle_trans with (/ 2 ^ 2)%R; [apply inverse_power_le; lia|simpl; lra]. }
  destruct (entropy_row_score [Finite q; Finite q; Finite q]) as [_ H0].
  { simpl. lia. }
  { repeat constructor; exists q; (split; [reflexivity|right; now apply Hprob]). }
  destruct H0 as (h & Eh & Hh).
  { intros [H|[H|[H|[]]]]; injection H as H; lra. }
  destruct (entropy_row_score [Finite 0; Finite 1; Finite 0]) as [H1 _].
  { simpl. lia. }
  { repeat constructor; try (exists 0%R; split; [reflexivity|now left]).
    exists 1%R. split; [reflexivity|right]. split; [|lra].
    apply Rle_trans with (/ 2 ^ 0)%R; [apply inverse_power_le; lia|simpl; lra]. }
  specialize (H1 ltac:(now left)).
  assert (Escores : entropy_based rnd
                      [[Finite q; Finite q; Finite q]; [Finite 0; Finite 1; Finite 0]]
                      (snd (saturating_model [0; 1])) (Some (snd (saturating_model [7])))
                    = Some [Finite h; NaN]).
  { rewrite entropy_based_rows. cbn [map] in Eh, H1 |- *. now rewrite Eh, H1. }
  exists q, h. split; [exact Hq|]. split; [exact Hh|]. split; [exact Esoft|].
  split; [now rewrite Esoft|].
  unfold get_samples, demo_train_loader, demo_unlabeled_loader.
  cbn [for_each bind ret call_model fst snd cat_onto app method call_method].
  unfold bind, call_model, ret. cbn [fst snd app]. rewrite Esoft.
  match goal with
  | |- context [entropy_based rnd ?p ?f ?ft] =>
      replace (entropy_based rnd p f ft) with (Some [Finite h; NaN])
        by (symmetry; exact Escores)
  end.
  unfold lift, select_samples. cbn [uncertainty_sampling_method].
  replace (String.eqb "entropy_based" "entropy_based") with true by reflexivity.
  rewrite (argsort_nan_first argsort h Hc). reflexivity.
Qed.

End Float32Facts.

(** [flush_to_zero] meets [rounding]. *)
Lemma flush_to_zero_rounding : Float32.rounding Float32.flush_to_zero.
Proof.
  assert (Ht : (0 < / 2 ^ 150)%R) by (apply Rinv_0_lt_compat, pow_lt; lra).
  constructor.
  - intros x (m & a & b & Hm & Ha & Hb & ->). unfold Float32.flush_to_zero.
    destruct (Rle_dec _ _) as [Hsmall|_]; [|reflexivity].
    destruct (Z.eq_dec m 0) as [->|Hne]; [f_equal; unfold Rdiv; ring|exfalso].
    assert (H1 : (1 <= Rabs (IZR m))%R).
    { rewrite <- abs_IZR. apply IZR_le. lia. }
    assert (H2 : (1 <= 2 ^ a)%R) by (apply pow_R1_Rle; lra).
    assert (H3 : (0 < / 2 ^ b)%R) by (apply Rinv_0_lt_compat, pow_lt; lra).
    assert (H4 : (/ 2 ^ 149 <= / 2 ^ b)%R) by (apply inverse_power_le; lia).
    assert (H5 : (/ 2 ^ 150 < / 2 ^ 149)%R).
    { cbn [pow]. rewrite Rinv_mult.
      assert (0 < / 2 ^ 149)%R by (apply Rinv_0_lt_compat, pow_lt; lra). lra. }
    unfold Rdiv in Hsmall.
    rewrite !Rabs_mult, (Rabs_pos_eq (2 ^ a)), (Rabs_pos_eq (/ 2 ^ b)) in Hsmall by lra.
    assert (H6 : (1 * 1 * / 2 ^ b <= Rabs (IZR m) * 2 ^ a * / 2 ^ b)%R).
    { apply Rmult_le_compat_r; [lra|]. apply Rmult_le_compat; lra. }
    lra.
  - intros x y Hxy. unfold Float32.flush_to_zero.
    destruct (Rle_dec (Rabs x) _) as [Hx|Hx], (Rle_dec (Rabs y) _) as [Hy|Hy]; simpl;
      revert Hx Hy; unfold Rabs; destruct (Rcase_abs x), (Rcase_abs y); lra.
  - intros x Hx. unfold Float32.flush_to_zero.
    destruct (Rle_dec _ _); [reflexivity|contradiction].
Qed.

Lemma float_leb_le (a b : Float32.float32) :
  Float32.float_leb a b = true <-> Float32.float_le a b.
Proof.
  destruct a as [x|[|]|], b as [y|[|]|]; simpl; try tauto; try (split; [discriminate|tauto]).
  destruct (Rle_dec x y); split; auto; discriminate.
Qed.

Lemma float_le_total (a b : Float32.float32) :
  Float32.float_le a b \/ Float32.float_le b a.
Proof. destruct a as [x|[|]|], b as [y|[|]|]; simpl; auto. lra. Qed.

Lemma float_le_trans (a b c : Float32.float32) :
  Float32.float_le a b -> Float32.float_le b c -> Float32.float_le a c.
Proof.
  destruct a as [x|[|]|], b as [y|[|]|], c as [z|[|]|]; simpl; auto; try tauto. lra.
Qed.

Section FloatSortPositions.

Variable descending : bool.
Variable samples : Float32.Tensor1.

Let float_before (i j : nat) : Prop :=
  Float32.ordered descending (nth i samples Float32.NaN) (nth j samples Float32.NaN).

Lemma float_ordered_b (x y : Float32.float32) :
  Float32.ordered_b descending x y = true <-> Float32.ordered descending x y.
Proof. unfold Float32.ordered_b, Float32.ordered. destruct descending; apply float_leb_le. Qed.

Lemma float_insert_position_perm (i : nat) (l : list nat) :
  Permutation (Float32.insert_position descending samples i l) (i :: l).
Proof.
  induction l as [|j t IH]; simpl; auto.
  destruct (Float32.ordered_b _ _ _); auto.
  rewrite IH. apply perm_swap.
Qed.

Lemma float_insert_position_sorted (i : nat) (l : list nat) :
  StronglySorted float_before l ->
  StronglySorted float_before (Float32.insert_position descending samples i l).
Proof.
  induction 1 as [|j t Hs IH Hall]; simpl.
  - repeat constructor.
  - destruct (Float32.ordered_b _ _ _) eqn:E.
    + apply float_ordered_b in E.
      constructor; [now constructor|]. constructor; [exact E|].
      eapply Forall_impl; [|exact Hall]. intros k Hjk.
      unfold float_before, Float32.ordered in *.
      destruct descending; eapply float_le_trans; eassumption.
    + constructor; [exact IH|].
      apply (Permutation_Forall (Permutation_sym (float_insert_position_perm i t))).
      constructor; [|exact Hall].
      assert (Hn : ~ Float32.ordered descending (nth i samples Float32.NaN)
                     (nth j samples Float32.NaN)).
      { intros H. apply float_ordered_b in H. congruence. }
      unfold float_before, Float32.ordered in *.
      destruct descending;
        destruct (float_le_total (nth i samples Float32.NaN) (nth j samples Float32.NaN));
        tauto.
Qed.

Lemma float_sort_positions_spec (l : list nat) :
  Permutation (fold_right (Float32.insert_position descending samples) [] l) l
  /\ StronglySorted float_before
       (fold_right (Float32.insert_position descending samples) [] l).
Proof.
  induction l as [|i t [IHp IHs]]; simpl.
  - split; constructor.
  - split; [|now apply float_insert_position_sorted].
    rewrite float_insert_position_perm. now constructor.
Qed.

End FloatSortPositions.

Lemma float_stable_argsort_contract : Float32.argsort_contract Float32.stable_argsort.
Proof. intros d s. apply float_sort_positions_spec. Qed.

Lemma entropy_based_nan_iff_zero_witness :
  exists scores,
    Float32.entropy_based Float32.flush_to_zero
      [[Float32.Finite (/ 2); Float32.Finite (/ 2)]; [Float32.Finite 0; Float32.Finite 1]]
      [] None
    = Some scores
    /\ Forall2 (fun row score =>
                  (In (Float32.Finite 0) row -> score = Float32.NaN)
                  /\ (~ In (Float32.Finite 0) row ->
                      exists h, score = Float32.Finite h /\ (0 <= h)%R))
         [[Float32.Finite (/ 2); Float32.Finite (/ 2)];
          [Float32.Finite 0; Float32.Finite 1]] scores.
Proof.
  apply (entropy_based_nan_iff_zero Float32.flush_to_zero flush_to_zero_rounding).
  assert (Hhalf : (/ 2 ^ 149 <= / 2 <= 1)%R).
  { split; [|lra].
    apply Rle_trans with (/ 2 ^ 1)%R; [apply inverse_power_le; lia|simpl; lra]. }
  assert (Hone : (/ 2 ^ 149 <= 1 <= 1)%R).
  { split; [|lra].
    apply Rle_trans with (/ 2 ^ 0)%R; [apply inverse_power_le; lia|simpl; lra]. }
  repeat constructor; try (simpl; lia).
  - exists (/ 2)%R. split; [reflexivity|now right].
  - exists (/ 2)%R. split; [reflexivity|now right].
  - exists 0%R. split; [reflexivity|now left].
  - exists 1%R. split; [reflexivity|now right].
Defined.

Lemma entropy_selects_saturated_witness :
  exists q h,
    (/ 4 <= q <= / 2)%R /\ (0 <= h)%R
    /\ Float32.softmax Float32.flush_to_zero (fst (Float32.saturating_model [0; 1]))
       = [[Float32.Finite q; Float32.Finite q; Float32.Finite q];
          [Float32.Finite 0; Float32.Finite 1; Float32.Finite 0]]
    /\ Float32.entropy_based Float32.flush_to_zero
         (Float32.softmax Float32.flush_to_zero (fst (Float32.saturating_model [0; 1])))
         (snd (Float32.saturating_model [0; 1]))
         (Some (snd (Float32.saturating_model [7])))
       = Some [Float32.Finite h; Float32.NaN]
    /\ Float32.get_samples Float32.flush_to_zero Float32.saturating_model
         Float32.stable_argsort Float32.no_other_scores entropy_sampler
         demo_train_loader demo_unlabeled_loader 1 []
       = Some ([1], [[7]; [0; 1]]).
Proof.
  apply (entropy_selects_saturated Float32.flush_to_zero flush_to_zero_rounding
           Float32.stable_argsort Float32.no_other_scores python_object true
           entropy_sampler float_stable_argsort_contract).
  reflexivity.
Defined.

(* ================================================================= *)
(** * Part III — further properties of the code *)
(* ================================================================= *)

(* ----------------------------------------------------------------- *)
(** ** [AverageMeter] *)

Section MeterFacts.

Context {V : Type} {values : MeterValue V}.

Lemma meter_update_some (m : AverageMeter.t V) (v : V) (n : Z) :
  (AverageMeter.count m + n <> 0)%Z ->
  exists m',
    AverageMeter.update m v n = Some m'
    /\ AverageMeter.val m' = v
    /\ AverageMeter.count m' = (AverageMeter.count m + n)%Z.
Proof.
  intros Hc. unfold AverageMeter.update.
  destruct (Z.eqb_spec (AverageMeter.count m + n) 0) as [E|_]; [contradiction|].
  eexists. split; [reflexivity|]. simpl. auto.
Qed.

Lemma meter_stays_alive (batches : list (V * Z)) :
  forall m, (0 < AverageMeter.count m)%Z ->
            Forall (fun b => 0 <= snd b)%Z batches ->
            AverageMeter.update_all m batches <> None.
Proof.
  induction batches as [|[v n] rest IH]; intros m Hm Hall; simpl; [discriminate|].
  inversion Hall as [|? ? Hn Hrest]; subst. simpl in Hn.
  destruct (meter_update_some m v n ltac:(lia)) as (m1 & E1 & _ & Hc1).
  rewrite E1. apply IH; [lia|exact Hrest].
Qed.

(** X3. With non-negative batch sizes, a sequence of updates on a fresh
    meter raises [ZeroDivisionError] exactly when its first batch is empty
    (size 0); once one example has been counted no later update raises. *)
Theorem average_meter_raises_on_empty_first_batch (v : V) (n : Z)
  (rest : list (V * Z)) :
  Forall (fun b => 0 <= snd b)%Z ((v, n) :: rest) ->
  (AverageMeter.update_all AverageMeter.init ((v, n) :: rest) = None <-> n = 0%Z).
Proof.
  intros Hall. inversion Hall as [|? ? Hn Hrest]; subst. simpl in Hn.
  split.
  - intros Hnone. destruct (Z.eq_dec n 0) as [E|Hne]; [exact E|]. exfalso.
    simpl in Hnone.
    destruct (meter_update_some AverageMeter.init v n ltac:(simpl; lia))
      as (m1 & E1 & _ & Hc1).
    rewrite E1 in Hnone. simpl in Hc1.
    apply (meter_stays_alive rest m1 ltac:(lia) Hrest Hnone).
  - intros ->. reflexivity.
Qed.

End MeterFacts.

Lemma average_meter_raises_on_empty_first_batch_witness :
  AverageMeter.update_all AverageMeter.init [((1 # 2)%Q, 0%Z); ((1 # 4)%Q, 2%Z)] = None.
Proof.
  apply (average_meter_raises_on_empty_first_batch (1 # 2)%Q 0%Z [((1 # 4)%Q, 2%Z)]).
  - repeat constructor; simpl; discriminate.
  - reflexivity.
Defined.

(* ----------------------------------------------------------------- *)
(** ** The learning-rate schedule *)

Lemma ratio_bounds (a b : Z) :
  (0 <= a <= b)%Z -> (0 < b)%Z -> (0 <= IZR a / IZR b <= 1)%R.
Proof.
  intros [Ha Hab] Hb.
  pose proof (IZR_le _ _ Ha) as H0. pose proof (IZR_le _ _ Hab) as H1.
  pose proof (IZR_lt _ _ Hb) as H2. simpl in H0, H2.
  split.
  - apply Rmult_le_pos; [exact H0|]. left. now apply Rinv_0_lt_compat.
  - apply (Rmult_le_reg_r (IZR b)); [exact H2|].
    unfold Rdiv. rewrite Rmult_assoc, Rinv_l by lra. lra.
Qed.

Lemma ratio_increasing (a a' b : Z) :
  (a < a')%Z -> (0 < b)%Z -> (IZR a / IZR b < IZR a' / IZR b)%R.
Proof.
  intros Ha Hb. pose proof (IZR_lt _ _ Ha) as H1. pose proof (IZR_lt _ _ Hb) as H2.
  simpl in H2. unfold Rdiv. apply Rmult_lt_compat_r; [|exact H1].
  now apply Rinv_0_lt_compat.
Qed.

Lemma lr_lambda_end_of_warmup (warmup training : Z) (cycles : R) :
  lr_lambda warmup training cycles warmup = 1%R.
Proof.
  unfold lr_lambda. rewrite Z.ltb_irrefl, Z.sub_diag.
  unfold Rdiv. rewrite Rmult_0_l, Rmult_0_r, cos_0. apply Rmax_right. lra.
Qed.

(** X4. The schedule factor is always between 0 and 1: for every
    non-negative step, whatever the warm-up length, the number of training
    steps and the number of cycles. *)
Theorem lr_lambda_bounds (warmup training : Z) (cycles : R) (step : Z) :
  (0 <= step)%Z -> (0 <= lr_lambda warmup training cycles step <= 1)%R.
Proof.
  intros Hs. unfold lr_lambda.
  destruct (Z.ltb_spec step warmup) as [Hlt|Hge].
  - rewrite Z.max_r by lia. apply ratio_bounds; lia.
  - split; [apply Rmax_l|]. apply Rmax_lub; [lra|apply COS_bound].
Qed.

Lemma lr_lambda_bounds_witness :
  (0 <= lr_lambda 10 100 default_num_cycles 55 <= 1)%R.
Proof. apply lr_lambda_bounds. lia. Defined.

(** X5. During warm-up the factor is [step / warmup] and grows strictly
    with the step, and it is exactly 1 at the step where warm-up ends. *)
Theorem lr_lambda_warmup (warmup training : Z) (cycles : R) (step step' : Z) :
  (0 <= step < step')%Z -> (step' <= warmup)%Z ->
  lr_lambda warmup training cycles step = (IZR step / IZR warmup)%R
  /\ (lr_lambda warmup training cycles step < lr_lambda warmup training cycles step')%R
  /\ lr_lambda warmup training cycles warmup = 1%R.
Proof.
  intros [H0 Hlt] Hle.
  assert (E : lr_lambda warmup training cycles step = (IZR step / IZR warmup)%R).
  { unfold lr_lambda. destruct (Z.ltb_spec step warmup); [|lia]. now rewrite Z.max_r by lia. }
  split; [exact E|]. split; [|apply lr_lambda_end_of_warmup].
  rewrite E. destruct (Z.eq_dec step' warmup) as [->|Hne].
  - rewrite lr_lambda_end_of_warmup.
    pose proof (ratio_increasing step warmup warmup Hlt ltac:(lia)) as H.
    unfold Rdiv in H at 2. rewrite Rinv_r in H; [exact H|].
    apply not_0_IZR. lia.
  - unfold lr_lambda. destruct (Z.ltb_spec step' warmup); [|lia].
    rewrite Z.max_r by lia. apply ratio_increasing; lia.
Qed.

Lemma lr_lambda_warmup_witness :
  lr_lambda 10 100 default_num_cycles 3 = (IZR 3 / IZR 10)%R
  /\ (lr_lambda 10 100 default_num_cycles 3 < lr_lambda 10 100 default_num_cycles 4)%R
  /\ lr_lambda 10 100 default_num_cycles 10 = 1%R.
Proof. apply lr_lambda_warmup; lia. Defined.

Lemma progress_angle (warmup training step : Z) :
  (warmup <= step <= training)%Z -> (warmup < training)%Z ->
  (0 <= PI * default_num_cycles
        * (IZR (step - warmup) / IZR (Z.max 1 (training - warmup)))
   <= PI * (7 / 16))%R.
Proof.
  intros Hs Hw. rewrite Z.max_r by lia.
  destruct (ratio_bounds (step - warmup) (training - warmup) ltac:(lia) ltac:(lia))
    as [H0 H1].
  pose proof PI_RGT_0 as Hpi. unfold default_num_cycles. split; nra.
Qed.

(** X6. With the default [num_cycles = 7/16] the factor after warm-up is
    the cosine itself, never clipped: from the end of warm-up to the last
    training step it stays strictly positive and does not increase. *)
Theorem lr_lambda_decay (warmup training : Z) (step step' : Z) :
  (warmup <= step)%Z -> (step <= step')%Z -> (step' <= training)%Z ->
  (0 < lr_lambda warmup training default_num_cycles step')%R
  /\ (lr_lambda warmup training default_num_cycles step'
      <= lr_lambda warmup training default_num_cycles step)%R.
Proof.
  intros H1 H2 H3.
  destruct (Z.eq_dec warmup training) as [E|Hne].
  { assert (step = warmup) by lia. assert (step' = warmup) by lia. subst step step'.
    rewrite lr_lambda_end_of_warmup. lra. }
  assert (Hw : (warmup < training)%Z) by lia.
  pose proof PI_RGT_0 as Hpi.
  assert (Hcos : forall s, (warmup <= s <= training)%Z ->
                           lr_lambda warmup training default_num_cycles s
                           = cos (PI * default_num_cycles
                                  * (IZR (s - warmup) / IZR (Z.max 1 (training - warmup))))
                             /\ (0 < lr_lambda warmup training default_num_cycles s)%R).
  { intros s Hs. destruct (progress_angle warmup training s Hs Hw) as [Ha0 Ha1].
    assert (Hpos : (0 < cos (PI * default_num_cycles
                     * (IZR (s - warmup) / IZR (Z.max 1 (training - warmup)))))%R)
      by (apply cos_gt_0; lra).
    unfold lr_lambda. destruct (Z.ltb_spec s warmup); [lia|].
    rewrite Rmax_right by lra. split; [reflexivity|exact Hpos]. }
  destruct (Hcos step ltac:(lia)) as [Es _]. destruct (Hcos step' ltac:(lia)) as [Es' Hp'].
  split; [exact Hp'|]. rewrite Es, Es'.
  destruct (progress_angle warmup training step ltac:(lia) Hw) as [Ha0 Ha1].
  destruct (progress_angle warmup training step' ltac:(lia) Hw) as [Hb0 Hb1].
  apply cos_decr_1; try lra.
  rewrite !Z.max_r by lia.
  assert (Hr : (IZR (step - warmup) / IZR (training - warmup)
                <= IZR (step' - warmup) / IZR (training - warmup))%R).
  { unfold Rdiv. apply Rmult_le_compat_r.
    - left. apply Rinv_0_lt_compat. apply (IZR_lt 0). lia.
    - apply IZR_le. lia. }
  unfold default_num_cycles. nra.
Qed.

Lemma lr_lambda_decay_witness :
  (0 < lr_lambda 10 100 default_num_cycles 100)%R
  /\ (lr_lambda 10 100 default_num_cycles 100 <= lr_lambda 10 100 default_num_cycles 40)%R.
Proof. apply lr_lambda_decay; lia. Defined.

(* ----------------------------------------------------------------- *)
(** ** The ranking loss of the loss-prediction module *)

Lemma nth_map_in {A B : Type} (f : A -> B) (l : list A) (i : nat) (d : B) (d' : A) :
  i < length l -> nth i (map f l) d = f (nth i l d').
Proof.
  intros Hi. rewrite (nth_indep _ d (f d')) by (now rewrite length_map).
  apply map_nth.
Qed.

Lemma flip_difference_length (t : Tensor1) : length (flip_difference t) = length t / 2.
Proof.
  unfold flip_difference.
  rewrite length_firstn, length_map, length_combine, length_rev, Nat.min_id.
  apply Nat.min_l. apply Nat.Div0.div_le_upper_bound. lia.
Qed.

Lemma flip_difference_nth (t : Tensor1) (i : nat) :
  i < length t / 2 ->
  nth i (flip_difference t) 0%R = (nth i t 0 - nth (length t - S i) t 0)%R.
Proof.
  intros Hi. unfold flip_difference.
  assert (Hlt : i < length t).
  { pose proof (Nat.Div0.div_le_upper_bound (length t) 2 (length t) ltac:(lia)). lia. }
  rewrite nth_firstn. destruct (Nat.ltb_spec i (length t / 2)) as [_|]; [|lia].
  rewrite (nth_map_in _ _ _ _ (0%R, 0%R))
    by (now rewrite length_combine, length_rev, Nat.min_id).
  rewrite combine_nth by (now rewrite length_rev). simpl.
  now rewrite rev_nth by exact Hlt.
Qed.

Lemma indicator_value (t : R) :
  (2 * sign (clamp_min 0 t) - 1)%R = if Rlt_dec 0 t then 1%R else (-1)%R.
Proof.
  unfold sign, clamp_min, Rmax.
  destruct (Rle_dec 0 t) as [Hle|Hgt].
  - destruct (Rlt_dec 0 t); [lra|]. destruct (Rlt_dec t 0); lra.
  - destruct (Rlt_dec 0 0); [lra|]. destruct (Rlt_dec 0 t); [lra|]. lra.
Qed.

(** The product [indicator_func * pred] is defined whenever [pred] and
    [target] have the same length. *)
Lemma ranking_products (pred target : Tensor1) :
  length pred = length target ->
  mul_elementwise
    (map (fun t => (2 * sign (clamp_min 0 t) - 1)%R) (flip_difference target))
    (flip_difference pred)
  = Some (map (fun ab => (fst ab * snd ab)%R)
            (combine (map (fun t => (2 * sign (clamp_min 0 t) - 1)%R)
                        (flip_difference target))
               (flip_difference pred))).
Proof.
  intros Hlen. unfold mul_elementwise.
  rewrite length_map, !flip_difference_length, Hlen, Nat.eqb_refl. reflexivity.
Qed.

(** X7. A batch of odd length fails the assertion whatever the reduction;
    for a batch of even length a reduction other than ['mean'] and
    ['none'] does not raise ([NotImplementedError] is built but not
    raised): the function returns [None]. *)
Theorem ranking_loss_errors (pred target : Tensor1) (margin : R) (reduction : string) :
  (length pred mod 2 = 1 ->
   loss_module_objective_func pred target margin reduction = None)
  /\ (length pred mod 2 = 0 ->
      reduction <> "mean"%string -> reduction <> "none"%string ->
      loss_module_objective_func pred target margin reduction = Some LossNone).
Proof.
  unfold loss_module_objective_func. split.
  - intros ->. reflexivity.
  - intros -> Hm Hn. simpl.
    destruct (String.eqb_spec reduction "mean"); [contradiction|].
    destruct (String.eqb_spec reduction "none"); [contradiction|]. reflexivity.
Qed.

Lemma ranking_loss_errors_witness :
  loss_module_objective_func [1; 2; 3]%R [1; 2; 3]%R 1 "mean" = None
  /\ loss_module_objective_func [1; 2]%R [1; 2]%R 1 "sum" = Some LossNone.
Proof.
  split.
  - apply (proj1 (ranking_loss_errors [1; 2; 3]%R [1; 2; 3]%R 1 "mean")). reflexivity.
  - apply (proj2 (ranking_loss_errors [1; 2]%R [1; 2]%R 1 "sum")).
    + reflexivity.
    + discriminate.
    + discriminate.
Defined.

Lemma clamped_nonneg (l : list R) (margin : R) :
  Forall (fun x => (0 <= x)%R) (map (fun x => clamp_min 0 (margin - x)) l).
Proof.
  induction l as [|x t IH]; simpl; constructor; [apply Rmax_l|exact IH].
Qed.

Lemma Rsum_nonneg (l : list R) : Forall (fun x => (0 <= x)%R) l -> (0 <= Rsum l)%R.
Proof.
  unfold Rsum. induction 1 as [|x t Hx _ IH]; simpl; lra.
Qed.

(** X8. For predictions and targets of the same even length [n], the
    reduction ['none'] returns [n / 2] losses, none of them negative, and
    the reduction ['mean'] (for [n > 0]) returns a non-negative scalar. *)
Theorem ranking_loss_nonnegative (pred target : Tensor1) (margin : R) :
  length pred = length target ->
  length pred mod 2 = 0 ->
  (exists losses,
      loss_module_objective_func pred target margin "none" = Some (LossTensor losses)
      /\ length losses = length pred / 2
      /\ Forall (fun x => (0 <= x)%R) losses)
  /\ (0 < length pred ->
      exists loss,
        loss_module_objective_func pred target margin "mean" = Some (LossScalar loss)
        /\ (0 <= loss)%R).
Proof.
  intros Hlen Heven. unfold loss_module_objective_func. rewrite Heven. simpl.
  rewrite (ranking_products pred target Hlen). split.
  - eexists. split; [reflexivity|]. split; [|apply clamped_nonneg].
    rewrite !length_map, length_combine, length_map, !flip_difference_length, Hlen.
    apply Nat.min_id.
  - intros Hpos. eexists. split; [reflexivity|].
    apply Rmult_le_pos; [apply Rsum_nonneg, clamped_nonneg|].
    left. apply Rinv_0_lt_compat. rewrite flip_difference_length.
    apply lt_0_INR. 
    assert (2 <= length pred).
    { destruct (length pred) as [|[|k]]; simpl in *; try lia; discriminate. }
    apply Nat.div_str_pos. lia.
Qed.

Lemma ranking_loss_nonnegative_witness :
  (exists losses,
      loss_module_objective_func [3; 1; 2; 0]%R [1; 0; 1; 0]%R 1 "none"
      = Some (LossTensor losses)
      /\ length losses = 2
      /\ Forall (fun x => (0 <= x)%R) losses)
  /\ (exists loss,
         loss_module_objective_func [3; 1; 2; 0]%R [1; 0; 1; 0]%R 1 "mean"
         = Some (LossScalar loss)
         /\ (0 <= loss)%R).
Proof.
  destruct (ranking_loss_nonnegative [3; 1; 2; 0]%R [1; 0; 1; 0]%R 1 eq_refl eq_refl)
    as [Hnone Hmean].
  split; [exact Hnone|]. apply Hmean. simpl. lia.
Defined.

(** X9. With reduction ['none'], entry [i] of the result compares example
    [i] with its mirror example [n - 1 - i]: it is zero exactly when the
    predictions of the two are separated by at least [margin] in the
    direction in which their targets are ordered (example [i] first when
    its target is strictly larger, the mirror example first otherwise). *)
Theorem ranking_loss_zero (pred target : Tensor1) (margin : R) (losses : Tensor1)
  (i : nat) :
  length pred = length target ->
  length pred mod 2 = 0 ->
  loss_module_objective_func pred target margin "none" = Some (LossTensor losses) ->
  i < length pred / 2 ->
  (nth i losses 0%R = 0%R <->
   if Rlt_dec (nth (length pred - S i) target 0%R) (nth i target 0%R)
   then (margin <= nth i pred 0 - nth (length pred - S i) pred 0)%R
   else (margin <= nth (length pred - S i) pred 0 - nth i pred 0)%R).
Proof.
  intros Hlen Heven Hloss Hi.
  unfold loss_module_objective_func in Hloss. rewrite Heven in Hloss. simpl in Hloss.
  rewrite (ranking_products pred target Hlen) in Hloss. injection Hloss as <-.
  assert (Hl1 : length (flip_difference pred) = length pred / 2)
    by apply flip_difference_length.
  assert (Hl2 : length (flip_difference target) = length pred / 2)
    by (rewrite flip_difference_length, Hlen; reflexivity).
  rewrite (nth_map_in _ _ _ _ 0%R)
    by (rewrite length_map, length_combine, length_map, Hl1, Hl2, Nat.min_id; exact Hi).
  rewrite (nth_map_in _ _ _ _ (0%R, 0%R))
    by (rewrite length_combine, length_map, Hl1, Hl2, Nat.min_id; exact Hi).
  rewrite combine_nth by (now rewrite length_map, Hl1, Hl2).
  rewrite (nth_map_in _ _ _ _ 0%R) by (rewrite Hl2; exact Hi).
  cbn [fst snd]. rewrite indicator_value.
  rewrite !flip_difference_nth by (rewrite <- ?Hlen; exact Hi).
  rewrite <- Hlen. unfold clamp_min, Rmax.
  destruct (Rlt_dec 0 (nth i target 0 - nth (length pred - S i) target 0)%R) as [Hgt|Hle];
    destruct (Rlt_dec (nth (length pred - S i) target 0%R) (nth i target 0%R))
      as [Hgt'|Hle'];
    try lra;
    match goal with
    | |- context [Rle_dec ?a ?b] => destruct (Rle_dec a b)
    end; split; intros; lra.
Qed.

Lemma ranking_loss_zero_witness :
  nth 0 [Rmax 0 (1 - 1 * (3 - 0)); Rmax 0 (1 - -1 * (1 - 2))]%R 0%R = 0%R
  <-> (if Rlt_dec (nth (4 - 1) [1; 0; 1; 0]%R 0%R) (nth 0 [1; 0; 1; 0]%R 0%R)
       then (1 <= nth 0 [3; 1; 2; 0] 0 - nth (4 - 1) [3; 1; 2; 0] 0)%R
       else (1 <= nth (4 - 1) [3; 1; 2; 0] 0 - nth 0 [3; 1; 2; 0] 0)%R).
Proof.
  apply (ranking_loss_zero [3; 1; 2; 0]%R [1; 0; 1; 0]%R 1).
  - reflexivity.
  - reflexivity.
  - unfold loss_module_objective_func, flip_difference, mul_elementwise. simpl.
    rewrite !indicator_value.
    destruct (Rlt_dec 0 (1 - 0)) as [_|H]; [|exfalso; lra].
    destruct (Rlt_dec 0 (0 - 1)) as [H|_]; [exfalso; lra|]. reflexivity.
  - simpl. lia.
Defined.

(* ----------------------------------------------------------------- *)
(** ** The NT-Xent mask *)

Lemma set_at_map_seq {A : Type} (g : nat -> A) (v : A) (n : nat) :
  forall s i, i < n ->
    set_at i v (map g (seq s n))
    = map (fun j => if Nat.eqb j (s + i) then v else g j) (seq s n).
Proof.
  induction n as [|n IH]; intros s i Hi; [lia|].
  destruct i as [|i]; simpl.
  - rewrite Nat.add_0_r, Nat.eqb_refl. f_equal.
    apply map_ext_in. intros j Hj. apply in_seq in Hj.
    destruct (Nat.eqb_spec j s); [lia|reflexivity].
  - destruct (Nat.eqb_spec s (s + S i)); [lia|]. f_equal.
    rewrite IH by lia. apply map_ext. intros j.
    now replace (S s + i) with (s + S i) by lia.
Qed.

Lemma nth_map_seq {A : Type} (g : nat -> A) (n i : nat) (d : A) :
  i < n -> nth i (map g (seq 0 n)) d = g i.
Proof.
  intros Hi. rewrite (nth_map_in g _ _ d 0) by (now rewrite length_seq).
  now rewrite seq_nth.
Qed.

Lemma tabulate_ext (n : nat) (f g : nat -> nat -> bool) :
  (forall r c, r < n -> c < n -> f r c = g r c) -> tabulate n f = tabulate n g.
Proof.
  intros H. unfold tabulate. apply map_ext_in. intros r Hr. apply in_seq in Hr.
  apply map_ext_in. intros c Hc. apply in_seq in Hc. apply H; lia.
Qed.

Lemma set_entry_tabulate (n r c : nat) (v : bool) (f : nat -> nat -> bool) :
  r < n -> c < n ->
  set_entry r c v (tabulate n f)
  = tabulate n (fun r' c' => if Nat.eqb r' r && Nat.eqb c' c then v else f r' c').
Proof.
  intros Hr Hc. unfold set_entry, tabulate.
  rewrite nth_map_seq by exact Hr.
  rewrite (set_at_map_seq (fun r => map (f r) (seq 0 n))) by exact Hr. simpl.
  apply map_ext. intros r'. destruct (Nat.eqb_spec r' r) as [->|Hne]; simpl.
  - now rewrite set_at_map_seq by exact Hc.
  - reflexivity.
Qed.

Lemma fill_diagonal_tabulate (n : nat) (v : bool) (f : nat -> nat -> bool) :
  fill_diagonal_from 0 v (tabulate n f)
  = tabulate n (fun r c => if Nat.eqb c r then v else f r c).
Proof.
  unfold tabulate.
  assert (H : forall m s,
             s + m <= n ->
             fill_diagonal_from s v (map (fun r => map (f r) (seq 0 n)) (seq s m))
             = map (fun r => map (fun c => if Nat.eqb c r then v else f r c) (seq 0 n))
                 (seq s m)).
  { induction m as [|m IH]; intros s Hs; simpl; [reflexivity|].
    rewrite IH by lia. f_equal. now rewrite set_at_map_seq by lia. }
  apply H. lia.
Qed.

Lemma mask_loop (batch_size : nat) (f : nat -> nat -> bool) (k : nat) :
  k <= batch_size ->
  fold_left
    (fun mask i =>
       let mask := set_entry i (batch_size + i) false mask in
       set_entry (batch_size + i) i false mask)
    (seq 0 k) (tabulate (batch_size * 2) f)
  = tabulate (batch_size * 2)
      (fun r c =>
         if (Nat.ltb r k && Nat.eqb c (batch_size + r))
            || (Nat.ltb c k && Nat.eqb r (batch_size + c))
         then false else f r c).
Proof.
  induction k as [|k IH]; intros Hk.
  - simpl. apply tabulate_ext. intros r c _ _. reflexivity.
  - rewrite seq_S, fold_left_app, IH by lia. simpl.
    rewrite !set_entry_tabulate by lia.
    apply tabulate_ext. intros r c Hr Hc.
    destruct (Nat.eqb_spec r (batch_size + k)), (Nat.eqb_spec c k),
      (Nat.eqb_spec r k), (Nat.eqb_spec c (batch_size + k)),
      (Nat.ltb_spec r k), (Nat.ltb_spec c k), (Nat.ltb_spec r (S k)),
      (Nat.ltb_spec c (S k)), (Nat.eqb_spec c (batch_size + r)),
      (Nat.eqb_spec r (batch_size + c)); simpl; try reflexivity; lia.
Qed.

Lemma repeat_map_seq {A : Type} (x : A) (m s : nat) :
  repeat x m = map (fun _ : nat => x) (seq s m).
Proof.
  revert s; induction m as [|m IH]; intros s; simpl; [reflexivity|]. now rewrite <- IH.
Qed.

(** The mask in closed form: an entry is cleared exactly when its row and
    column are correlated. *)
Lemma mask_correlated_samples_table (batch_size : nat) :
  mask_correlated_samples batch_size
  = tabulate (batch_size * 2) (fun r c => negb (correlated batch_size r c)).
Proof.
  unfold mask_correlated_samples.
  assert (E : repeat (repeat true (batch_size * 2)) (batch_size * 2)
              = tabulate (batch_size * 2) (fun _ _ => true)).
  { unfold tabulate.
    rewrite (repeat_map_seq (repeat true (batch_size * 2)) _ 0).
    now rewrite (repeat_map_seq true _ 0). }
  rewrite E, fill_diagonal_tabulate, mask_loop by lia.
  apply tabulate_ext. intros r c Hr Hc. unfold correlated.
  destruct (Nat.eqb_spec c r), (Nat.eqb_spec c (batch_size + r)),
    (Nat.eqb_spec r (batch_size + c)), (Nat.ltb_spec r batch_size),
    (Nat.ltb_spec c batch_size); simpl; try reflexivity; lia.
Qed.

Lemma filter_two_removed (n a b : nat) :
  a < n -> b < n -> a <> b ->
  length (filter (fun c => negb (Nat.eqb c a || Nat.eqb c b)) (seq 0 n)) = n - 2.
Proof.
  intros Ha Hb Hab.
  assert (Hp : Permutation
                 (a :: b :: filter (fun c => negb (Nat.eqb c a || Nat.eqb c b)) (seq 0 n))
                 (seq 0 n)).
  { apply NoDup_Permutation.
    - constructor; [|constructor].
      + intros [E|Hin]; [congruence|]. apply filter_In in Hin as [_ Hin].
        rewrite Nat.eqb_refl in Hin. discriminate.
      + intros Hin. apply filter_In in Hin as [_ Hin].
        rewrite Nat.eqb_refl, orb_true_r in Hin. discriminate.
      + apply NoDup_filter, seq_NoDup.
    - apply seq_NoDup.
    - intros x. simpl. rewrite filter_In, in_seq. split.
      + intros [<-|[<-|[H _]]]; lia.
      + intros Hx. destruct (Nat.eqb_spec x a) as [->|Hxa]; [now left|].
        destruct (Nat.eqb_spec x b) as [->|Hxb]; [now right; left|].
        right. right. split; [exact Hx|reflexivity]. }
  apply Permutation_length in Hp. simpl in Hp. rewrite length_seq in Hp. lia.
Qed.

(** X10. The mask of [NTXent] for batch size [B] is a symmetric
    [2B x 2B] table that clears, in every row [r], exactly two entries: the
    diagonal entry and the entry of the other view of the same example.
    Every row therefore keeps [2B - 2] entries, which is what lets
    [sim[self.mask]] be reshaped to [2B] rows. *)
Theorem mask_correlated_samples_rows (batch_size r c : nat) :
  r < batch_size * 2 -> c < batch_size * 2 ->
  length (mask_correlated_samples batch_size) = batch_size * 2
  /\ length (nth r (mask_correlated_samples batch_size) []) = batch_size * 2
  /\ nth c (nth r (mask_correlated_samples batch_size) []) true
     = negb (correlated batch_size r c)
  /\ nth c (nth r (mask_correlated_samples batch_size) []) true
     = nth r (nth c (mask_correlated_samples batch_size) []) true
  /\ length (filter (fun b : bool => b) (nth r (mask_correlated_samples batch_size) []))
     = batch_size * 2 - 2.
Proof.
  intros Hr Hc. rewrite mask_correlated_samples_table. unfold tabulate.
  rewrite length_map, length_seq. split; [reflexivity|].
  rewrite !nth_map_seq by assumption.
  rewrite length_map, length_seq. split; [reflexivity|]. split; [reflexivity|]. split.
  - unfold correlated.
    destruct (Nat.eqb_spec c r), (Nat.eqb_spec r c), (Nat.eqb_spec c (batch_size + r)),
      (Nat.eqb_spec r (batch_size + c)); simpl; try reflexivity; lia.
  - assert (Hf : forall l, length (filter (fun b : bool => b)
                                    (map (fun c => negb (correlated batch_size r c)) l))
                           = length (filter (fun c => negb (correlated batch_size r c)) l)).
    { induction l as [|x l IH]; simpl; [reflexivity|].
      destruct (negb (correlated batch_size r x)); simpl; now rewrite IH. }
    rewrite Hf.
    set (partner := if Nat.ltb r batch_size then batch_size + r else r - batch_size).
    rewrite (filter_ext_in _ (fun c => negb (Nat.eqb c r || Nat.eqb c partner))).
    + apply filter_two_removed; subst partner;
        destruct (Nat.ltb_spec r batch_size); lia.
    + intros x Hx. apply in_seq in Hx. unfold correlated. subst partner. f_equal.
      destruct (Nat.ltb_spec r batch_size), (Nat.eqb_spec x r),
        (Nat.eqb_spec x (batch_size + r)), (Nat.eqb_spec r (batch_size + x));
        simpl; try reflexivity; try lia;
        repeat match goal with
               | |- context [Nat.eqb ?a ?b] => destruct (Nat.eqb_spec a b)
               end; simpl; try reflexivity; lia.
Qed.

Lemma mask_correlated_samples_rows_witness :
  length (mask_correlated_samples 3) = 6
  /\ length (nth 4 (mask_correlated_samples 3) []) = 6
  /\ nth 1 (nth 4 (mask_correlated_samples 3) []) true = negb (correlated 3 4 1)
  /\ nth 1 (nth 4 (mask_correlated_samples 3) []) true
     = nth 4 (nth 1 (mask_correlated_samples 3) []) true
  /\ length (filter (fun b : bool => b) (nth 4 (mask_correlated_samples 3) [])) = 4.
Proof. apply (mask_correlated_samples_rows 3 4 1); simpl; lia. Defined.

(* ----------------------------------------------------------------- *)
(** ** Ranges of the scores [get_samples] computes

    [get_samples] hands every scoring function the softmax of the model
    output: rows of probabilities. *)










Lemma last_two_exists (row : list R) :
  2 <= length row ->
  exists a b, last_two (Rsort row) = Some (a, b) /\ In a row /\ In b row.
Proof.
  intros Hlen. unfold last_two.
  pose proof (Permutation_length (Rsort_perm row)) as Hl.
  destruct (rev (Rsort row)) as [|a [|b rest]] eqn:E.
  - apply (f_equal (@length R)) in E. rewrite length_rev in E. simpl in E. lia.
  - apply (f_equal (@length R)) in E. rewrite length_rev in E. simpl in E. lia.
  - exists a, b. split; [reflexivity|].
    assert (Hin : forall x, In x (a :: b :: rest) -> In x row).
    { intros x Hx. rewrite <- E in Hx. apply in_rev in Hx.
      apply (Permutation_in _ (Rsort_perm row)), Hx. }
    split; apply Hin; simpl; auto.
Qed.

(** X12. For rows of at least two probabilities (entries between 0 and 1),
    [margin_confidence] does not raise and returns scores between 0 and 1,
    both included (a one-hot row scores 1); when moreover no probability
    is 0, [ratio_confidence] returns scores of at least 1. *)
Theorem margin_ratio_range (probs feat : Tensor2) (feat_train : option Tensor2) :
  Forall (fun row => 2 <= length row /\ Forall (fun p => (0 <= p <= 1)%R) row) probs ->
  (exists scores,
      margin_confidence probs feat feat_train = Some scores
      /\ length scores = length probs
      /\ Forall (fun s => (0 <= s <= 1)%R) scores)
  /\ (Forall (Forall (fun p => (0 < p)%R)) probs ->
      exists scores,
        ratio_confidence probs feat feat_train = Some scores
        /\ length scores = length probs
        /\ Forall (fun s => (1 <= s)%R) scores).
Proof.
  intros Hall.
  assert (Hrows : Forall (fun row =>
                            exists a b, last_two (Rsort row) = Some (a, b)
                                        /\ In b row /\ (0 <= b)%R /\ (b <= a)%R /\ (a <= 1)%R)
                    probs).
  { eapply Forall_impl; [|exact Hall]. intros row [Hlen Hrange].
    destruct (last_two_exists row Hlen) as (a & b & E & Ha & Hb).
    exists a, b. split; [exact E|]. split; [exact Hb|].
    destruct (last_two_sorted _ _ _ E) as [_ Hba].
    rewrite Forall_forall in Hrange. split; [apply Hrange, Hb|].
    split; [exact Hba|apply Hrange, Ha]. }
  unfold margin_confidence, ratio_confidence. split.
  - clear Hall. induction Hrows as [|row rest (a & b & E & _ & Hb & Hba & Ha) _ IH]; simpl.
    + exists []. repeat split; constructor.
    + destruct IH as (scores & Es & Hl & Hs). rewrite E. simpl. rewrite Es.
      exists ((a - b)%R :: scores). split; [reflexivity|]. split; [simpl; now rewrite Hl|].
      constructor; [lra|exact Hs].
  - clear Hall. intros Hpos.
    induction Hrows as [|row rest (a & b & E & Hin & _ & Hba & Ha) _ IH]; simpl.
    + exists []. repeat split; constructor.
    + inversion Hpos as [|? ? Hrow Hrest]; subst.
      destruct (IH Hrest) as (scores & Es & Hl & Hs). rewrite E. simpl. rewrite Es.
      exists ((a / b)%R :: scores). split; [reflexivity|]. split; [simpl; now rewrite Hl|].
      constructor; [|exact Hs].
      rewrite Forall_forall in Hrow. pose proof (Hrow b Hin) as Hb.
      apply (Rmult_le_reg_r b); [exact Hb|]. unfold Rdiv.
      rewrite Rmult_assoc, Rinv_l by lra. lra.
Qed.

Lemma margin_ratio_range_witness :
  (exists scores,
      margin_confidence [[0; 1]; [1 / 2; 1 / 4; 1 / 4]]%R [] None = Some scores
      /\ length scores = 2
      /\ Forall (fun s => (0 <= s <= 1)%R) scores)
  /\ (exists scores,
         ratio_confidence [[3 / 5; 2 / 5]; [1 / 2; 1 / 4; 1 / 4]]%R [] None = Some scores
         /\ length scores = 2
         /\ Forall (fun s => (1 <= s)%R) scores).
Proof.
  split.
  - apply (margin_ratio_range [[0; 1]; [1 / 2; 1 / 4; 1 / 4]]%R [] None).
    repeat (apply Forall_cons || apply Forall_nil || split); simpl; lra || lia.
  - apply (margin_ratio_range [[3 / 5; 2 / 5]; [1 / 2; 1 / 4; 1 / 4]]%R [] None).
    + repeat (apply Forall_cons || apply Forall_nil || split); simpl; lra || lia.
    + repeat (apply Forall_cons || apply Forall_nil); lra.
Defined.












(* ----------------------------------------------------------------- *)
(** ** More on the cycle controller *)

Section ControllerCycles.

Context {A : Type} {numbers : Number A}.
Variable args : Args A.
Variable validate : Z -> Q.
Variable start_labeled : A.

Lemma main_run :
  run_from args validate (initial_state start_labeled)
    (fst (main args start_labeled validate)).
Proof. apply epoch_loop_run. Qed.

Lemma main_event_epoch (pre : list (Event A)) (ev : Event A) (post : list (Event A)) :
  fst (main args start_labeled validate) = pre ++ ev :: post ->
  ev_epoch ev = (start_epoch args + Z.of_nat (length pre))%Z.
Proof.
  intros Hmain.
  destruct (epoch_loop_epochs args validate (range (start_epoch args) (epochs args))
              (initial_state start_labeled)) as [rest Hrest].
  fold (main args start_labeled validate) in Hrest.
  rewrite Hmain, map_app in Hrest. simpl in Hrest. rewrite <- app_assoc in Hrest.
  assert (Hlen : (length pre < length (range (start_epoch args) (epochs args)))%nat).
  { rewrite Hrest, length_app, length_map. simpl. lia. }
  rewrite <- (range_nth _ (epochs args) _ 0%Z Hlen).
  rewrite Hrest at 1. rewrite app_nth2; rewrite length_map; [|lia].
  now rewrite Nat.sub_diag.
Qed.

Lemma stagnant_since_sampling (recent : list (Event A)) (ev : Event A) (older : list (Event A)) :
  ev_sampled ev = true ->
  (stagnant_epochs (recent ++ ev :: older) <= Z.of_nat (length recent))%Z.
Proof.
  intros Hs. induction recent as [|e recent IH]; cbn [app stagnant_epochs length].
  - rewrite Hs, orb_true_r. simpl. lia.
  - rewrite Nat2Z.inj_succ. destruct (ev_is_best e || ev_sampled e); lia.
Qed.

(** X15. Two sampling events are always more than [add_labeled_epochs]
    epochs apart: after sampling fires, it cannot fire again before the
    patience window has been exceeded anew. *)
Theorem sampling_events_apart (pre : list (Event A)) (ev1 : Event A) (mid : list (Event A))
  (ev2 : Event A) (post : list (Event A)) :
  fst (main args start_labeled validate) = pre ++ ev1 :: mid ++ ev2 :: post ->
  ev_sampled ev1 = true -> ev_sampled ev2 = true ->
  (add_labeled_epochs args < ev_epoch ev2 - ev_epoch ev1)%Z
  /\ (ev_epoch ev2 - ev_epoch ev1 = Z.of_nat (length mid) + 1)%Z.
Proof.
  intros Hmain Hs1 Hs2.
  pose proof (main_event_epoch pre ev1 (mid ++ ev2 :: post) Hmain) as He1.
  assert (Hmain' : fst (main args start_labeled validate)
                   = (pre ++ ev1 :: mid) ++ ev2 :: post).
  { rewrite Hmain, <- app_assoc. reflexivity. }
  pose proof (main_event_epoch _ ev2 post Hmain') as He2.
  rewrite length_app in He2. simpl in He2.
  assert (Hgap : (ev_epoch ev2 - ev_epoch ev1 = Z.of_nat (length mid) + 1)%Z) by lia.
  split; [|exact Hgap]. rewrite Hgap.
  pose proof main_run as Hrun. rewrite Hmain' in Hrun.
  destruct (run_invariant args validate
              (fun past s => last_best_epochs s = stagnant_epochs (rev past)
                             /\ s = state_after start_labeled past)
              (counter_invariant args validate start_labeled) _ ev2 post
              (initial_state start_labeled) []
              (conj (eq_refl 0%Z) (eq_refl (initial_state start_labeled))) Hrun)
    as [[Hc _] E].
  simpl in Hc. rewrite rev_app_distr in Hc. simpl in Hc. rewrite <- app_assoc in Hc.
  simpl in Hc.
  pose proof (stagnant_since_sampling (rev mid) ev1 (rev pre) Hs1) as Hle.
  rewrite length_rev in Hle.
  destruct (epoch_body_event _ _ _ _ _ _ E) as (_ & Hcnt & Hsam & _).
  rewrite Hs2 in Hsam. symmetry in Hsam. apply sampling_condition in Hsam as [_ Hgt].
  rewrite Hcnt in Hgt. destruct (ev_is_best ev2); lia.
Qed.

End ControllerCycles.

Lemma sampling_events_apart_witness :
  (add_labeled_epochs demo_args
   < ev_epoch (nth 5 demo_trace no_event) - ev_epoch (nth 3 demo_trace no_event))%Z.
Proof.
  assert (E : fst (main demo_args (1 # 4)%Q demo_validate)
              = firstn 3 demo_trace ++ nth 3 demo_trace no_event
                  :: [nth 4 demo_trace no_event] ++ nth 5 demo_trace no_event
                  :: skipn 6 demo_trace)
    by (vm_compute; reflexivity).
  apply (sampling_events_apart demo_args demo_validate (1 # 4)%Q _ _ _ _ _ E).
  - vm_compute. reflexivity.
  - vm_compute. reflexivity.
Defined.

Section ControllerRecords.

Context {A : Type} {numbers : Number A}.
Variable args : Args A.
Variable validate : Z -> Q.
Variable start_labeled : A.

Lemma epoch_body_records (epoch : Z) (r : Report) (s : CycleState A) (ev : Event A)
  (s' : CycleState A) :
  epoch_body args epoch r s = (ev, s') ->
  current_labeled s'
  = (if ev_sampled ev then number_add (current_labeled s) (add_labeled args)
     else current_labeled s)
  /\ metrics_per_cycle s'
     = (if ev_sampled ev then pd_concat (metrics_per_cycle s) (best_report s)
        else metrics_per_cycle s)
  /\ best_report s'
     = (if ev_sampled ev then best_report s
        else if ev_is_best ev then Some r else best_report s)
  /\ best_model s'
     = (if ev_sampled ev then best_model s
        else if ev_is_best ev then Some epoch else best_model s).
Proof.
  unfold epoch_body. intros E. injection E as <- <-. cbn.
  repeat split; destruct (_ && _); reflexivity.
Qed.

Lemma pd_concat_app (frame : list Report) (item : option Report) :
  pd_concat frame item = frame ++ pd_concat [] item.
Proof. destruct item; simpl; [reflexivity|now rewrite app_nil_r]. Qed.

Lemma records_best_step (past : list (Event A)) (s : CycleState A) (epoch : Z) (ev : Event A)
  (s' : CycleState A) :
  records_best validate s ->
  epoch_body args epoch (epoch, validate epoch) s = (ev, s') ->
  records_best validate s'.
Proof.
  intros Hrec E.
  destruct (epoch_body_event _ _ _ _ _ _ E) as (Hbest & _ & _ & _ & Hr).
  destruct (epoch_body_records _ _ _ _ _ E) as (_ & _ & Hrep & Hmod).
  cbn [macro_avg_recall snd] in Hbest, Hr.
  destruct (ev_sampled ev).
  - unfold records_best. rewrite Hr, Hrep, Hmod. exact Hrec.
  - destruct (ev_is_best ev).
    + right. exists epoch. rewrite Hr, Hrep, Hmod. repeat split.
      symmetry in Hbest. apply Qgtb_true in Hbest.
      destruct Hrec as [(_ & _ & H0)|(e & _ & _ & Hre & Hpos)].
      * now rewrite H0 in Hbest.
      * rewrite Hre in Hbest. eapply Qlt_trans; eassumption.
    + unfold records_best. rewrite Hr, Hrep, Hmod. exact Hrec.
Qed.

(** X16. At every epoch the controller's three records of the best epoch
    agree: either none has been set (no recall above 0 yet), or
    [best_report], [best_model] and [best_recall] are the report, the model
    snapshot and the recall of one and the same epoch.  What a sampling
    event appends to [metrics_per_cycle] is that [best_report], and nothing
    when none has been set ([pd.concat] drops [None]); the event leaves
    [best_report] as it is. *)
Theorem best_records_agree (pre : list (Event A)) (ev : Event A) (post : list (Event A)) :
  fst (main args start_labeled validate) = pre ++ ev :: post ->
  records_best validate (ev_before ev)
  /\ records_best validate (ev_after ev)
  /\ (ev_sampled ev = true ->
      metrics_per_cycle (ev_after ev)
      = metrics_per_cycle (ev_before ev)
        ++ match best_report (ev_before ev) with
           | Some report => [report]
           | None => []
           end
      /\ best_report (ev_after ev) = best_report (ev_before ev)).
Proof.
  intros Hmain.
  pose proof (epoch_loop_run args validate (range (start_epoch args) (epochs args))
                (initial_state start_labeled)) as Hrun.
  fold (main args start_labeled validate) in Hrun. rewrite Hmain in Hrun.
  destruct (run_invariant args validate
              (fun _ s => records_best validate s)
              records_best_step pre ev post (initial_state start_labeled) []) as [Hb E].
  - left. repeat split.
  - exact Hrun.
  - split; [exact Hb|]. split; [exact (records_best_step [] _ _ _ _ Hb E)|].
    intros Hs. destruct (epoch_body_records _ _ _ _ _ E) as (_ & Hm & Hrep & _).
    rewrite Hs in Hm, Hrep. split; [|exact Hrep].
    rewrite Hm, pd_concat_app. reflexivity.
Qed.

Lemma sampling_events_snoc (past : list (Event A)) (ev : Event A) :
  sampling_events (past ++ [ev])
  = if ev_sampled ev then S (sampling_events past) else sampling_events past.
Proof.
  unfold sampling_events. rewrite filter_app, length_app. cbn [filter].
  destruct (ev_sampled ev); cbn [length]; lia.
Qed.

(** The amounts and the cycle metrics, as an invariant of the loop body. *)
Lemma current_labeled_step (past : list (Event A)) (s : CycleState A) (epoch : Z) (ev : Event A)
  (s' : CycleState A) :
  current_labeled s = labeled_after args start_labeled (sampling_events past)
  /\ metrics_per_cycle s = cycle_reports past
  /\ (best_report s = None -> metrics_per_cycle s = []) ->
  epoch_body args epoch (epoch, validate epoch) s = (ev, s') ->
  current_labeled s' = labeled_after args start_labeled (sampling_events (past ++ [ev]))
  /\ metrics_per_cycle s' = cycle_reports (past ++ [ev])
  /\ (best_report s' = None -> metrics_per_cycle s' = []).
Proof.
  intros (Hc & Hm & Hn) E.
  destruct (epoch_body_fields _ _ _ _ _ _ E) as (Hb & _).
  destruct (epoch_body_records _ _ _ _ _ E) as (Hcl & Hmp & Hrep & _).
  rewrite sampling_events_snoc. unfold cycle_reports. rewrite flat_map_app.
  fold (cycle_reports past). cbn [flat_map]. rewrite app_nil_r, Hb, Hcl, Hmp, Hrep.
  destruct (ev_sampled ev).
  - split; [now rewrite Hc|]. split; [now rewrite pd_concat_app, Hm|].
    intros Hnone. now rewrite Hnone, (Hn Hnone).
  - rewrite app_nil_r. split; [exact Hc|]. split; [exact Hm|].
    destruct (ev_is_best ev); [discriminate|exact Hn].
Qed.

Lemma loop_continues (eps : list Z) :
  forall s pre ev post,
    fst (epoch_loop args validate eps s) = pre ++ ev :: post ->
    post <> [] ->
    number_gt (current_labeled (ev_after ev)) (stop_labeled args) = false.
Proof.
  induction eps as [|epoch rest IH]; intros s pre ev post Hrun Hpost.
  - destruct pre; discriminate.
  - rewrite epoch_loop_cons in Hrun.
    destruct (epoch_body args epoch (epoch, validate epoch) s) as [e s'] eqn:E.
    destruct (epoch_body_fields _ _ _ _ _ _ E) as (_ & Ha & _).
    destruct (number_gt (current_labeled s') (stop_labeled args)) eqn:Estop.
    + cbn [fst] in Hrun. destruct pre as [|p [|? ?]]; try discriminate.
      injection Hrun as _ Hp. destruct post; [contradiction|discriminate].
    + destruct (epoch_loop args validate rest s') as [evs sf] eqn:El. cbn [fst] in Hrun.
      destruct pre as [|p pre].
      * injection Hrun as -> _. now rewrite Ha.
      * injection Hrun as _ Hrest. apply (IH s' pre ev post); [|exact Hpost].
        now rewrite El.
Qed.

(** X17. Whatever numbers the labeled amounts are (integers, floats):
    [current_labeled] is the initial amount with [add_labeled] added once
    per sampling event so far, one addition after the other, and it changes
    at no other time; [metrics_per_cycle] is, in order, the best reports
    found by the sampling events, an event that found none adding nothing,
    so it stays empty as long as no epoch has been a new best; and the loop
    runs a further epoch only if [current_labeled > stop_labeled] is false:
    the epoch at which the comparison is true is the last one. *)
Theorem labeled_accounting (pre : list (Event A)) (ev : Event A) (post : list (Event A)) :
  fst (main args start_labeled validate) = pre ++ ev :: post ->
  current_labeled (ev_after ev)
  = labeled_after args start_labeled (sampling_events (pre ++ [ev]))
  /\ metrics_per_cycle (ev_after ev) = cycle_reports (pre ++ [ev])
  /\ (best_report (ev_after ev) = None -> metrics_per_cycle (ev_after ev) = [])
  /\ (post <> [] ->
      number_gt (current_labeled (ev_after ev)) (stop_labeled args) = false)
  /\ (number_gt (current_labeled (ev_after ev)) (stop_labeled args) = true -> post = []).
Proof.
  intros Hmain.
  pose proof (epoch_loop_run args validate (range (start_epoch args) (epochs args))
                (initial_state start_labeled)) as Hrun.
  fold (main args start_labeled validate) in Hrun. rewrite Hmain in Hrun.
  destruct (run_invariant args validate
              (fun past s =>
                 current_labeled s = labeled_after args start_labeled (sampling_events past)
                 /\ metrics_per_cycle s = cycle_reports past
                 /\ (best_report s = None -> metrics_per_cycle s = []))
              current_labeled_step pre ev post (initial_state start_labeled) [])
    as [Hinv E].
  - repeat split.
  - exact Hrun.
  - destruct (current_labeled_step _ _ _ _ _ Hinv E) as (Hc & Hm & Hn).
    split; [exact Hc|]. split; [exact Hm|]. split; [exact Hn|].
    assert (Hcont : post <> [] ->
                    number_gt (current_labeled (ev_after ev)) (stop_labeled args) = false).
    { intros Hpost. eapply loop_continues; [exact Hmain|exact Hpost]. }
    split; [exact Hcont|].
    intros Hgt. destruct post as [|e post]; [reflexivity|exfalso].
    assert (Hne : e :: post <> []) by discriminate.
    apply Hcont in Hne. congruence.
Qed.

End ControllerRecords.

Lemma best_records_agree_witness :
  records_best demo_validate (ev_before (nth 3 demo_trace no_event))
  /\ records_best demo_validate (ev_after (nth 3 demo_trace no_event)).
Proof.
  assert (E : fst (main demo_args (1 # 4)%Q demo_validate)
              = firstn 3 demo_trace ++ nth 3 demo_trace no_event :: skipn 4 demo_trace)
    by (vm_compute; reflexivity).
  destruct (best_records_agree demo_args demo_validate (1 # 4)%Q _ _ _ E) as (Hb & Ha & _).
  split; [exact Hb|exact Ha].
Defined.

(** With floats the second sampling event (epoch 5) brings
    [current_labeled] to [0.1 + 0.1 + 0.1 = 0.30000000000000004], which is
    above [0.3]: the run ends there, with the best report (that of epoch 1)
    twice in [metrics_per_cycle]. *)
Lemma labeled_accounting_witness :
  current_labeled (ev_after (nth 5 Binary64.demo_trace Binary64.no_event))
  = PrimFloat.add (PrimFloat.add Binary64.tenth Binary64.tenth) Binary64.tenth
  /\ metrics_per_cycle (ev_after (nth 5 Binary64.demo_trace Binary64.no_event))
     = [(1%Z, (3 # 5)%Q); (1%Z, (3 # 5)%Q)]
  /\ skipn 6 Binary64.demo_trace = [].
Proof.
  assert (E : fst (main Binary64.demo_args Binary64.tenth demo_validate)
              = firstn 5 Binary64.demo_trace
                ++ nth 5 Binary64.demo_trace Binary64.no_event
                   :: skipn 6 Binary64.demo_trace)
    by (vm_compute; reflexivity).
  destruct (labeled_accounting Binary64.demo_args demo_validate Binary64.tenth _ _ _ E)
    as (Hc & Hm & _ & _ & Hstop).
  split; [rewrite Hc; vm_compute; reflexivity|].
  split; [rewrite Hm; vm_compute; reflexivity|]. apply Hstop. vm_compute. reflexivity.
Defined.

(* ----------------------------------------------------------------- *)
(** ** One sampling cycle: [perform_sampling] *)

Lemma pick_from_NoDup {A : Type} (keep : nat -> bool) (a : list A) :
  NoDup a -> NoDup (pick_from keep 0 a).
Proof.
  intros Hnd.
  pose proof (Permutation_NoDup (Permutation_sym (pick_from_partition keep 0 a)) Hnd) as H.
  eapply NoDup_app_remove_r, H.
Qed.

Lemma pick_from_firstn {A : Type} (ns : list nat) (m : nat) (a : list A) :
  Forall (fun p => p < m) ns ->
  forall i, pick_from (selected ns) i a = pick_from (selected ns) i (firstn (m - i) a).
Proof.
  intros Hns. induction a as [|x a IH]; intros i.
  - now rewrite firstn_nil.
  - destruct (m - i) as [|k] eqn:E.
    + simpl. assert (Hsel : selected ns i = false).
      { destruct (selected ns i) eqn:Es; [|reflexivity]. apply selected_In in Es.
        rewrite Forall_forall in Hns. apply Hns in Es. lia. }
      rewrite Hsel, IH. replace (m - S i) with 0 by lia. now rewrite firstn_O.
    + simpl. rewrite IH. replace (m - S i) with k by lia. reflexivity.
Qed.

Section SamplingFacts.

Variable shuffle : list Z -> list Z.
Hypothesis shuffle_permutes : forall l, Permutation (shuffle l) l.

(** What a successful promotion followed by [create_loaders] leaves. *)
Lemma promote_and_reload (labeled unlabeled samples : list Z) (subset_num : nat) :
  Forall (fun p => - Z.of_nat (length unlabeled) <= p < Z.of_nat (length unlabeled))%Z
    samples ->
  exists new_unlabeled,
    postprocess_indices labeled unlabeled samples
    = Some (labeled ++ pick_from (selected (positions (length unlabeled) samples)) 0 unlabeled,
            new_unlabeled)
    /\ Permutation (shuffle new_unlabeled) new_unlabeled
    /\ Permutation
         ((labeled ++ pick_from (selected (positions (length unlabeled) samples)) 0 unlabeled)
            ++ shuffle new_unlabeled)
         (labeled ++ unlabeled)
    /\ (disjoint_seq labeled unlabeled -> NoDup unlabeled ->
        disjoint_seq
          (labeled ++ pick_from (selected (positions (length unlabeled) samples)) 0 unlabeled)
          (shuffle new_unlabeled)
        /\ NoDup (shuffle new_unlabeled))
    /\ S (length new_unlabeled)
       = S (length unlabeled)
         - length (nodup Nat.eq_dec (positions (length unlabeled) samples)).
Proof.
  intros Hpy. rewrite postprocess_indices_spec by exact Hpy.
  eexists. split; [reflexivity|]. split; [apply shuffle_permutes|]. split; [|split].
  - rewrite (shuffle_permutes _). apply promoted_union.
  - intros Hdis Hnd. split.
    + intros x H1 H2. apply (Permutation_in _ (shuffle_permutes _)) in H2.
      eapply promoted_disjoint; eauto.
    + apply (Permutation_NoDup (Permutation_sym (shuffle_permutes _))).
      now apply pick_from_NoDup.
  - pose proof (promoted_count unlabeled samples Hpy) as Hcount.
    pose proof (Permutation_length
                  (pick_from_partition
                     (selected (positions (length unlabeled) samples)) 0 unlabeled)) as Hl.
    rewrite length_app in Hl. lia.
Qed.

(** X18. In the active-learning branch, for positions the sampler returned
    in range, one cycle leaves the labeled sequence extended by the
    unlabeled entries at those positions, the labeled dataset on the new
    labeled sequence and the unlabeled dataset on the first
    [unlabeled_subset_num] entries of the reshuffled rest; labeled and
    unlabeled together are the same indices as before, still disjoint, and
    the targets are untouched.  If all positions are below [m], every
    promoted entry is among the first [m] entries of the unlabeled sequence:
    only examples the loader enumerated are promoted. *)
Theorem perform_sampling_active_learning (samples : list Z)
  (pseudo : option (list Z * list Z)) (env : RunEnv)
  (add_labeled_num subset_num : nat) (labeled unlabeled targets : list Z) (m : nat) :
  Forall (fun p => - Z.of_nat (length unlabeled) <= p < Z.of_nat (length unlabeled))%Z
    samples ->
  exists datasets new_labeled new_unlabeled,
    perform_sampling shuffle "active_learning" (Some samples) pseudo env
      add_labeled_num subset_num labeled unlabeled targets
    = Some (datasets, new_labeled, new_unlabeled, targets)
    /\ new_labeled
       = labeled ++ pick_from (selected (positions (length unlabeled) samples)) 0 unlabeled
    /\ labeled_dataset_indices datasets = new_labeled
    /\ unlabeled_dataset_indices datasets = firstn subset_num new_unlabeled
    /\ Permutation (new_labeled ++ new_unlabeled) (labeled ++ unlabeled)
    /\ (disjoint_seq labeled unlabeled -> NoDup unlabeled ->
        disjoint_seq new_labeled new_unlabeled /\ NoDup new_unlabeled)
    /\ (Forall (fun p => p < m) (positions (length unlabeled) samples) ->
        forall x,
          In x (pick_from (selected (positions (length unlabeled) samples)) 0 unlabeled) ->
          In x (firstn m unlabeled)).
Proof.
  intros Hpy.
  destruct (promote_and_reload labeled unlabeled samples subset_num Hpy)
    as (u & E & _ & Hperm & Hdis & _).
  unfold perform_sampling. simpl. rewrite E. unfold create_loaders.
  eexists _, _, _. split; [reflexivity|].
  split; [reflexivity|]. split; [reflexivity|]. split; [reflexivity|].
  split; [exact Hperm|]. split; [exact Hdis|].
  intros Hm x Hx. rewrite (pick_from_firstn _ m _ Hm 0) in Hx.
  rewrite Nat.sub_0_r in Hx. eapply pick_from_In, Hx.
Qed.

End SamplingFacts.

Lemma perform_sampling_active_learning_witness :
  exists datasets new_labeled new_unlabeled,
    perform_sampling (@rev Z) "active_learning" (Some [1; 0]%Z) None (mkRunEnv 0 [])
      2 2 [10; 11]%Z [20; 21; 22; 23]%Z [0; 1; 0; 1]%Z
    = Some (datasets, new_labeled, new_unlabeled, [0; 1; 0; 1]%Z)
    /\ new_labeled = [10; 11; 20; 21]%Z
    /\ unlabeled_dataset_indices datasets = firstn 2 new_unlabeled.
Proof.
  destruct (perform_sampling_active_learning (@rev Z)
              (fun l => Permutation_sym (Permutation_rev l))
              [1; 0]%Z None (mkRunEnv 0 []) 2 2 [10; 11]%Z [20; 21; 22; 23]%Z
              [0; 1; 0; 1]%Z 2)
    as (ds & l & u & E & Hl & _ & Hu & _).
  - repeat constructor; simpl; lia.
  - exists ds, l, u. split; [exact E|]. split; [exact Hl|exact Hu].
Defined.

Section SamplingBranches.

Variable shuffle : list Z -> list Z.
Hypothesis shuffle_permutes : forall l, Permutation (shuffle l) l.

Lemma positions_of_nat (n : nat) (samples : list nat) :
  Forall (fun p => p < n) samples ->
  Forall (fun p => 0 <= p < Z.of_nat n)%Z (map Z.of_nat samples)
  /\ positions n (map Z.of_nat samples) = samples.
Proof.
  induction 1 as [|p t Hp _ [IH1 IH2]]; simpl.
  - split; [constructor|reflexivity].
  - split; [constructor; [lia|exact IH1]|].
    fold (positions n (map Z.of_nat t)). rewrite IH2, Z.mod_small by lia.
    now rewrite Nat2Z.id.
Qed.

(** X19. In the random-sampling branch (a strategy that is neither
    ['active_learning'] nor ['semi_supervised']) one cycle promotes exactly
    [add_labeled_num] entries when the unlabeled sequence has that many,
    whatever the entropy, and raises ([ValueError] of [choice]) when it has
    fewer: the pool cannot be drained by a last, smaller batch. *)
Theorem perform_sampling_random (strategy : string)
  (sampler : option (list Z)) (pseudo : option (list Z * list Z)) (env : RunEnv)
  (add_labeled_num subset_num : nat) (labeled unlabeled targets : list Z) :
  strategy <> "active_learning"%string -> strategy <> "semi_supervised"%string ->
  (add_labeled_num <= length unlabeled ->
   exists datasets new_labeled new_unlabeled,
     perform_sampling shuffle strategy sampler pseudo env
       add_labeled_num subset_num labeled unlabeled targets
     = Some (datasets, new_labeled, new_unlabeled, targets)
     /\ length new_labeled = length labeled + add_labeled_num
     /\ length new_unlabeled = length unlabeled - add_labeled_num
     /\ Permutation (new_labeled ++ new_unlabeled) (labeled ++ unlabeled)
     /\ labeled_dataset_indices datasets = new_labeled
     /\ unlabeled_dataset_indices datasets = firstn subset_num new_unlabeled)
  /\ (length unlabeled < add_labeled_num ->
      perform_sampling shuffle strategy sampler pseudo env
        add_labeled_num subset_num labeled unlabeled targets = None).
Proof.
  intros Hal Hss. unfold perform_sampling.
  destruct (String.eqb_spec strategy "active_learning"); [contradiction|].
  destruct (String.eqb_spec strategy "semi_supervised"); [contradiction|].
  split.
  - intros Hk.
    destruct (stratified_random_sampling_distinct env unlabeled add_labeled_num Hk)
      as (samples & E & Hlen & Hnd & Hrange & _).
    rewrite E. destruct (positions_of_nat _ _ Hrange) as [HZ Hpos].
    assert (Hpy : Forall (fun p => - Z.of_nat (length unlabeled) <= p
                                   < Z.of_nat (length unlabeled))%Z (map Z.of_nat samples)).
    { eapply Forall_impl; [|exact HZ]. simpl. intros; lia. }
    destruct (promote_and_reload shuffle shuffle_permutes labeled unlabeled
                (map Z.of_nat samples) subset_num Hpy)
      as (u & Ep & Hsh & Hperm & _ & Hu).
    rewrite Ep. unfold create_loaders. rewrite Hpos in *.
    rewrite (nodup_fixed Nat.eq_dec _ Hnd), Hlen in Hu.
    pose proof (promoted_count unlabeled (map Z.of_nat samples) Hpy) as Hcount.
    rewrite Hpos, (nodup_fixed Nat.eq_dec _ Hnd), Hlen in Hcount.
    eexists _, _, _. split; [reflexivity|].
    split; [rewrite length_app, Hcount; reflexivity|].
    split; [rewrite (Permutation_length Hsh); lia|].
    split; [exact Hperm|]. split; reflexivity.
  - intros Hk. unfold stratified_random_sampling, choice.
    destruct (Nat.leb_spec add_labeled_num (length unlabeled)); [lia|reflexivity].
Qed.

Lemma set_at_same {A : Type} (j : nat) (v d : A) (l : list A) :
  nth j l d = v -> j < length l -> set_at j v l = l.
Proof.
  revert j; induction l as [|h t IH]; intros [|j] Hv Hj; simpl in *; try lia.
  - now subst.
  - f_equal. apply IH; [exact Hv|lia].
Qed.

Lemma set_at_nth {A : Type} (j i : nat) (v d : A) (l : list A) :
  j < length l -> nth i (set_at j v l) d = if Nat.eqb i j then v else nth i l d.
Proof.
  revert j i; induction l as [|h t IH]; intros [|j] [|i] Hj; simpl in *; try lia;
    try reflexivity.
  apply IH. lia.
Qed.

(** The pseudo-labeling loop writes, for distinct in-range positions, the
    [k]-th label at the [k]-th position and nothing else. *)
Lemma relabel_spec (samples_indices : list Z) :
  forall targets samples_targets i,
    Forall (fun p => 0 <= p < Z.of_nat (length targets))%Z samples_indices ->
    NoDup samples_indices ->
    i + length samples_indices <= length samples_targets ->
    exists targets',
      relabel targets samples_indices samples_targets i = Some targets'
      /\ length targets' = length targets
      /\ (forall k, k < length samples_indices ->
                    nth (Z.to_nat (nth k samples_indices 0%Z)) targets' 0%Z
                    = nth (i + k) samples_targets 0%Z)
      /\ (forall j, ~ In (Z.of_nat j) samples_indices ->
                    nth j targets' 0%Z = nth j targets 0%Z).
Proof.
  induction samples_indices as [|p rest IH]; intros targets samples_targets i Hr Hnd Hlen.
  - exists targets. simpl. repeat split; auto. intros k Hk. lia.
  - inversion Hr as [|? ? Hp Hrest]; subst. inversion Hnd as [|? ? Hnin Hnd']; subst.
    simpl in Hlen. simpl.
    destruct (norm_index_positions (length targets) p ltac:(lia)) as [En _].
    rewrite En, Z.mod_small by lia.
    destruct (nth_error samples_targets i) as [t|] eqn:Et.
    2:{ apply nth_error_None in Et. lia. }
    assert (Ht : nth i samples_targets 0%Z = t) by (now apply nth_error_nth).
    set (targets1 := if Z.eqb (nth (Z.to_nat p) targets 0%Z) t then targets
                     else set_at (Z.to_nat p) t targets).
    assert (E1 : targets1 = set_at (Z.to_nat p) t targets).
    { subst targets1. destruct (Z.eqb_spec (nth (Z.to_nat p) targets 0%Z) t) as [E|_];
        [|reflexivity].
      symmetry. apply (set_at_same _ _ 0%Z); [exact E|lia]. }
    assert (Hl1 : length targets1 = length targets)
      by (rewrite E1; apply set_at_length).
    destruct (IH targets1 samples_targets (S i)) as (t' & Er & Hl & Hw & Ho).
    + now rewrite Hl1.
    + exact Hnd'.
    + lia.
    + exists t'. split; [exact Er|]. split; [congruence|]. split.
      * intros [|k] Hk; simpl.
        -- rewrite Ho.
           ++ rewrite E1, set_at_nth, Nat.eqb_refl, Nat.add_0_r by lia. now symmetry.
           ++ rewrite Z2Nat.id by lia. exact Hnin.
        -- rewrite Hw by lia. f_equal. lia.
      * intros j Hj. rewrite Ho by (intros H; apply Hj; now right).
        rewrite E1, set_at_nth by lia.
        destruct (Nat.eqb_spec j (Z.to_nat p)) as [->|_]; [|reflexivity].
        exfalso. apply Hj. left. lia.
Qed.

(** X20. In the semi-supervised branch, for distinct positions that are in
    range of both the unlabeled sequence and the targets, with one label per
    position: the entries of the unlabeled sequence at the positions are
    promoted, and the [k]-th pseudo-label is written into [targets] at the
    [k]-th position itself (the position, not the dataset index found
    there, is the index into [targets]); every other target is unchanged. *)
Theorem perform_sampling_pseudo_labels (sampler : option (list Z)) (env : RunEnv)
  (samples_indices samples_targets : list Z)
  (add_labeled_num subset_num : nat) (labeled unlabeled targets : list Z) :
  Forall (fun p => 0 <= p < Z.of_nat (length unlabeled))%Z samples_indices ->
  Forall (fun p => 0 <= p < Z.of_nat (length targets))%Z samples_indices ->
  NoDup samples_indices ->
  length samples_targets = length samples_indices ->
  exists datasets new_labeled new_unlabeled new_targets,
    perform_sampling shuffle "semi_supervised" sampler
      (Some (samples_indices, samples_targets)) env
      add_labeled_num subset_num labeled unlabeled targets
    = Some (datasets, new_labeled, new_unlabeled, new_targets)
    /\ new_labeled
       = labeled ++ pick_from (selected (map Z.to_nat samples_indices)) 0 unlabeled
    /\ length new_targets = length targets
    /\ (forall k, k < length samples_indices ->
                  nth (Z.to_nat (nth k samples_indices 0%Z)) new_targets 0%Z
                  = nth k samples_targets 0%Z)
    /\ (forall j, ~ In (Z.of_nat j) samples_indices ->
                  nth j new_targets 0%Z = nth j targets 0%Z).
Proof.
  intros Hu Ht Hnd Hlen.
  assert (Hpy : Forall (fun p => - Z.of_nat (length unlabeled) <= p
                                 < Z.of_nat (length unlabeled))%Z samples_indices).
  { eapply Forall_impl; [|exact Hu]. simpl. intros; lia. }
  destruct (promote_and_reload shuffle shuffle_permutes labeled unlabeled samples_indices
              subset_num Hpy) as (u & Ep & _).
  destruct (relabel_spec samples_indices targets samples_targets 0 Ht Hnd ltac:(lia))
    as (t' & Er & Hl & Hw & Ho).
  unfold perform_sampling. simpl. rewrite Ep, Er. unfold create_loaders.
  rewrite (positions_nonneg _ _ Hu).
  eexists _, _, _, _. split; [reflexivity|]. split; [reflexivity|].
  split; [exact Hl|]. split; [exact Hw|exact Ho].
Qed.

End SamplingBranches.

Lemma perform_sampling_random_witness :
  exists datasets new_labeled new_unlabeled,
    perform_sampling (@rev Z) "random_sampling" None None (mkRunEnv 0 [1; 0])
      2 2 [10; 11]%Z [20; 21; 22; 23]%Z [0; 1; 0; 1]%Z
    = Some (datasets, new_labeled, new_unlabeled, [0; 1; 0; 1]%Z)
    /\ length new_labeled = 4 /\ length new_unlabeled = 2.
Proof.
  destruct (perform_sampling_random (@rev Z)
              (fun l => Permutation_sym (Permutation_rev l))
              "random_sampling" None None (mkRunEnv 0 [1; 0]) 2 2
              [10; 11]%Z [20; 21; 22; 23]%Z [0; 1; 0; 1]%Z) as [Hok _].
  - discriminate.
  - discriminate.
  - destruct Hok as (ds & l & u & E & Hl & Hu & _); [simpl; lia|].
    exists ds, l, u. split; [exact E|]. split; [exact Hl|exact Hu].
Defined.

Lemma perform_sampling_pseudo_labels_witness :
  exists datasets new_labeled new_unlabeled new_targets,
    perform_sampling (@rev Z) "semi_supervised" None (Some ([2; 0]%Z, [7; 9]%Z))
      (mkRunEnv 0 []) 2 2 [10; 11]%Z [20; 21; 22; 23]%Z [0; 1; 0; 1]%Z
    = Some (datasets, new_labeled, new_unlabeled, new_targets)
    /\ new_labeled = [10; 11; 20; 22]%Z
    /\ length new_targets = 4.
Proof.
  destruct (perform_sampling_pseudo_labels (@rev Z)
              (fun l => Permutation_sym (Permutation_rev l))
              None (mkRunEnv 0 []) [2; 0]%Z [7; 9]%Z 2 2
              [10; 11]%Z [20; 21; 22; 23]%Z [0; 1; 0; 1]%Z)
    as (ds & l & u & t & E & Hl & Ht & _).
  - repeat constructor; simpl; lia.
  - repeat constructor; simpl; lia.
  - repeat constructor; simpl; intuition discriminate.
  - reflexivity.
  - exists ds, l, u, t. split; [exact E|]. split; [exact Hl|exact Ht].
Defined.

(* ----------------------------------------------------------------- *)
(** ** When [get_samples] raises *)

Lemma density_weighted_needs_bank (probs feat : Tensor2) :
  density_weighted probs feat None = None.
Proof. unfold density_weighted. now destruct (map_rows row_max probs). Qed.

(** A sampler the constructor builds from a name that is not a scoring
    function holds an attribute [self.method] cannot be applied to. *)
Lemma init_not_scoring (inherited : string -> bool) (name : string) (verbose : bool)
  (self : UncertaintySampling) :
  init inherited name verbose = Some self -> scoring_function_named name = None ->
  forall probs feat feat_train, call_method (method self) probs feat feat_train = None.
Proof.
  unfold init, getattr, scoring_function_named. cbn [find fst snd].
  destruct (String.eqb_spec "uncertainty_sampling_method" name) as [<-|Hne].
  { intros [= <-]. reflexivity. }
  destruct (class_attribute name) as [a|] eqn:E.
  - intros [= <-]. simpl. destruct a; intros H; try discriminate; reflexivity.
  - destruct (inherited name); [|discriminate]. intros [= <-]. reflexivity.
Qed.

Section GetSamplesRaises.

Variable X : Type.
Variable model : list X -> Tensor2 * Tensor2.
Variable argsort : bool -> Tensor1 -> list nat.

(** The pass over the unlabeled loader stops at the first batch the scoring
    function raises on. *)
Lemma unlabeled_pass_raises (self : UncertaintySampling) (feat_train : option Tensor2)
  (b : Batch X) (rest : Loader X) (acc : option Tensor1) (log : list (list X)) :
  batch_scores model self feat_train b = None ->
  for_each (b :: rest)
    (fun b samples =>
       bind (call_model model (fst b)) (fun out =>
       bind (lift (call_method (method self) (softmax (fst out)) (snd out) feat_train))
         (fun score =>
       ret (Some (cat_onto samples score))))) acc log
  = None.
Proof.
  unfold batch_scores. intros H. simpl.
  unfold bind at 1. unfold bind at 1. unfold call_model at 1. unfold bind at 1.
  rewrite H. reflexivity.
Qed.

(** X21. A sampler that the constructor accepts although its name is not
    one of the five scoring functions (['get_samples'], ['__init__'],
    ['uncertainty_sampling_method'], any attribute of [object]) is of no use:
    [get_samples] raises on every pair of loaders, for every [number]. *)
Theorem get_samples_needs_scoring_function (inherited : string -> bool) (name : string)
  (verbose : bool) (self : UncertaintySampling)
  (train_loader unlabeled_loader : Loader X) (number : nat) (log : list (list X)) :
  init inherited name verbose = Some self ->
  scoring_function_named name = None ->
  get_samples model argsort self train_loader unlabeled_loader number log = None.
Proof.
  intros Hinit Hname. destruct unlabeled_loader as [|b rest].
  - unfold get_samples. unfold bind at 1. rewrite train_pass. reflexivity.
  - unfold get_samples. unfold bind at 1. rewrite train_pass.
    unfold bind at 1. rewrite unlabeled_pass_raises; [reflexivity|].
    unfold batch_scores. apply (init_not_scoring _ _ _ _ Hinit Hname).
Qed.

(** X22. [get_samples] raises when there is nothing to score, and the
    density-weighted sampler raises when there is nothing to compare with:
    an empty unlabeled loader leaves [samples] at [None] for every sampler
    (whatever the training loader and [number], also [number = 0]), and an
    empty training loader leaves [feat_train] at [None], which
    [density_weighted] divides. *)
Theorem get_samples_empty_loaders (self : UncertaintySampling)
  (train_loader unlabeled_loader : Loader X) (number : nat) (log : list (list X)) :
  unlabeled_loader = []
  \/ (method self = StaticMethod DensityWeighted /\ train_loader = []) ->
  get_samples model argsort self train_loader unlabeled_loader number log = None.
Proof.
  intros [->|[Hm ->]].
  - unfold get_samples. unfold bind at 1. rewrite train_pass. reflexivity.
  - destruct unlabeled_loader as [|b rest].
    + reflexivity.
    + unfold get_samples. unfold bind at 1. rewrite train_pass.
      unfold bind at 1. rewrite unlabeled_pass_raises; [reflexivity|].
      unfold batch_scores. rewrite Hm. simpl. apply density_weighted_needs_bank.
Qed.

End GetSamplesRaises.

Lemma get_samples_needs_scoring_function_witness :
  init python_object "get_samples" false
  = Some (mkUncertaintySampling "get_samples" (BoundMethod "get_samples") false)
  /\ get_samples constant_model stable_argsort
       (mkUncertaintySampling "get_samples" (BoundMethod "get_samples") false)
       demo_train_loader demo_unlabeled_loader 1 [] = None.
Proof.
  split; [reflexivity|].
  apply (get_samples_needs_scoring_function _ constant_model stable_argsort
           python_object "get_samples" false); reflexivity.
Defined.

Lemma get_samples_empty_loaders_witness :
  get_samples constant_model stable_argsort
    (mkUncertaintySampling "density_weighted" (StaticMethod DensityWeighted) false)
    [] demo_unlabeled_loader 1 [] = None.
Proof.
  apply get_samples_empty_loaders. right. split; reflexivity.
Defined.
